(** * VoiceChat backend: room registry, signaling relay and room leave

    A shallow embedding of [backend/server.py]: the in-memory
    [ConnectionManager] (lines 37-73), the WebSocket endpoint
    (lines 488-521), the request-style relay endpoints (lines 421-458) and
    the [leave_room] endpoint (lines 367-397), with the properties the
    specification states about them.

    Conventions.
    - A Python [dict] that the code iterates over (the per-room map
      user id -> websocket) is an insertion-ordered association list with
      the operations of [PyDict]; the two outer maps, which are only ever
      indexed, are [gmap]s keyed by room id.
    - A websocket object is identified by a number (its identity).
    - A raised exception is an explicit outcome; a mutation made before the
      raise is kept in the state that is returned with it.
    - [await websocket.send_text] is one atomic step whose success is decided
      by the transport, a parameter of every function that writes. *)

From Stdlib Require Import ssreflect.
From stdpp Require Import gmap strings list fin_maps.

#[local] Open Scope general_if_scope.
#[local] Set Warnings "-rewrite-rw,-clear-no-such-hyp".

(** ** Python dictionaries with insertion order *)

Module PyDict.
Section ops.
Context {V : Type}.

(** [d[k]] / [d.get(k)]: the entry stored under [k]. *)
Fixpoint get (k : string) (d : list (string * V)) : option V :=
  match d with
  | [] => None
  | (k', v) :: rest => if decide (k' = k) then Some v else get k rest
  end.

(** [k in d]. *)
Definition contains (k : string) (d : list (string * V)) : bool :=
  match get k d with Some _ => true | None => false end.

(** [d[k] = v]: an existing key keeps its position, a new one is appended. *)
Fixpoint set (k : string) (v : V) (d : list (string * V)) : list (string * V) :=
  match d with
  | [] => [(k, v)]
  | (k', v') :: rest =>
      if decide (k' = k) then (k, v) :: rest else (k', v') :: set k v rest
  end.

(** [del d[k]], called under a [k in d] guard wherever the source uses it. *)
Fixpoint del (k : string) (d : list (string * V)) : list (string * V) :=
  match d with
  | [] => []
  | (k', v') :: rest => if decide (k' = k) then rest else (k', v') :: del k rest
  end.

(** [not d]: the dictionary is empty. *)
Definition is_empty (d : list (string * V)) : bool :=
  match d with [] => true | _ => false end.
End ops.
End PyDict.

(** [l.remove(x)] guarded by [x in l]: the first occurrence goes. *)
Fixpoint list_remove_first (x : string) (l : list string) : list string :=
  match l with
  | [] => []
  | y :: rest => if decide (y = x) then rest else y :: list_remove_first x rest
  end.

(** ** Exceptions and outcomes *)

Inductive exn : Type :=
  | KeyError
  | TypeError
  | JSONDecodeError
  | WebSocketDisconnect
  | RuntimeError
  | OverflowError
  | UnknownHashError
  | HTTPException (status_code : nat).

#[global] Instance exn_eq_dec : EqDecision exn.
Proof. solve_decision. Defined.

Inductive outcome (A : Type) : Type :=
  | Return (a : A)
  | Raise (e : exn).
Arguments Return {A} a.
Arguments Raise {A} e.

(** ** The connection manager (server.py, lines 37-60) *)

Definition WebSocket := nat.

Record ConnectionManager : Type := mkManager {
  active_connections : gmap string (list (string * WebSocket));
  room_participants : gmap string (list string)
}.

(** [ConnectionManager.__init__]. *)
Definition manager_init : ConnectionManager :=
  {| active_connections := ∅; room_participants := ∅ |}.

(** [ConnectionManager.connect], from the point where
    [await websocket.accept()] has returned. *)
Definition connect (websocket : WebSocket) (user_id room_id : string)
    (self : ConnectionManager) : ConnectionManager * outcome unit :=
  let self1 :=
    if decide (is_Some (active_connections self !! room_id)) then self
    else {| active_connections := <[room_id := []]> (active_connections self);
            room_participants := <[room_id := []]> (room_participants self) |} in
  match active_connections self1 !! room_id with
  | None => (self1, Raise KeyError)
  | Some conns =>
      let self2 :=
        {| active_connections :=
             <[room_id := PyDict.set user_id websocket conns]> (active_connections self1);
           room_participants := room_participants self1 |} in
      match room_participants self2 !! room_id with
      | None => (self2, Raise KeyError)
      | Some members =>
          if decide (user_id ∈ (members : list string)) then (self2, Return tt)
          else ({| active_connections := active_connections self2;
                   room_participants :=
                     <[room_id := members ++ [user_id]]> (room_participants self2) |},
                Return tt)
      end
  end.

(** [ConnectionManager.disconnect]. *)
Definition disconnect (user_id room_id : string)
    (self : ConnectionManager) : ConnectionManager * outcome unit :=
  match active_connections self !! room_id with
  | None => (self, Return tt)
  | Some conns =>
      if PyDict.contains user_id conns then
        let conns' := PyDict.del user_id conns in
        let self1 :=
          {| active_connections := <[room_id := conns']> (active_connections self);
             room_participants := room_participants self |} in
        match room_participants self1 !! room_id with
        | None => (self1, Raise KeyError)
        | Some members =>
            let self2 :=
              if decide (user_id ∈ (members : list string)) then
                {| active_connections := active_connections self1;
                   room_participants :=
                     <[room_id := list_remove_first user_id members]>
                       (room_participants self1) |}
              else self1 in
            if PyDict.is_empty conns' then
              ({| active_connections := delete room_id (active_connections self2);
                  room_participants := delete room_id (room_participants self2) |},
               Return tt)
            else (self2, Return tt)
        end
      else (self, Return tt)
  end.

(** The handle registered for [(room_id, user_id)], the test of lines 53
    and 63 read as a lookup. *)
Definition lookup_handle (room_id user_id : string)
    (self : ConnectionManager) : option WebSocket :=
  match active_connections self !! room_id with
  | None => None
  | Some conns => PyDict.get user_id conns
  end.

(** Sequences of registry operations, run from the freshly built manager. *)
Inductive registry_op : Type :=
  | Connect (websocket : WebSocket) (user_id room_id : string)
  | Disconnect (user_id room_id : string).

Definition apply_op (o : registry_op) (self : ConnectionManager)
    : ConnectionManager * outcome unit :=
  match o with
  | Connect ws u r => connect ws u r self
  | Disconnect u r => disconnect u r self
  end.

Fixpoint run_ops (ops : list registry_op) (self : ConnectionManager)
    : ConnectionManager * outcome unit :=
  match ops with
  | [] => (self, Return tt)
  | o :: rest =>
      match apply_op o self with
      | (self', Return _) => run_ops rest self'
      | (self', Raise e) => (self', Raise e)
      end
  end.

(** A registry state is reachable when some sequence of connects and
    disconnects, each returning normally, leads to it from the initial one. *)
Definition reachable (m : ConnectionManager) : Prop :=
  ∃ ops, run_ops ops manager_init = (m, Return tt).

(** ** JSON values and messages *)

(** What [json.loads] returns; an object is the [dict] it builds. *)
#[warnings="-register-all"]
Inductive json : Type :=
  | JNull
  | JBool (b : bool)
  | JNum (literal : string)
  | JStr (s : string)
  | JArr (items : list json)
  | JObj (fields : list (string * json)).

(** [v[key]] with a [str] key: only a [dict] can be indexed that way. *)
Definition subscript (v : json) (key : string) : outcome json :=
  match v with
  | JObj fields =>
      match PyDict.get key fields with
      | Some x => Return x
      | None => Raise KeyError
      end
  | _ => Raise TypeError
  end.

(** [v == s] against a [str]. *)
Definition eq_str (v : json) (s : string) : bool :=
  match v with
  | JStr s' => bool_decide (s' = s)
  | _ => false
  end.

(** How a value behaves in [v in d] when the keys of [d] are [str]: a list or
    a dict cannot be hashed, any other non-string is hashable and differs
    from every key. *)
Inductive key_view : Type :=
  | StrKey (s : string)
  | OtherKey
  | Unhashable.

Definition as_key (v : json) : key_view :=
  match v with
  | JStr s => StrKey s
  | JArr _ | JObj _ => Unhashable
  | _ => OtherKey
  end.

(** The text handed to [send_text]: the inbound frame as it was received, or
    [json.dumps] of an object built by the server. *)
Inductive message : Type :=
  | Raw (data : string)
  | Dumps (obj : json).

(** ** Writes to websockets *)

(** The transport decides each write: [None] when [send_text] returns,
    [Some e] when it raises [e]. *)
Definition transport : Type := WebSocket → option exn.

(** A computation that writes: the [send_text] calls it makes, in order, and
    how it ends. *)
Definition io (A : Type) : Type :=
  transport → list (WebSocket * message) * outcome A.

#[global] Instance io_ret : MRet io := λ A a _, ([], Return a).

#[global] Instance io_bind : MBind io := λ A B k c net,
  match c net with
  | (tr, Return a) => let '(tr', o) := k a net in (tr ++ tr', o)
  | (tr, Raise e) => (tr, Raise e)
  end.

Definition raise {A} (e : exn) : io A := λ _, ([], Raise e).

Definition lift {A} (o : outcome A) : io A := λ _, ([], o).

(** [await websocket.send_text(message)]. *)
Definition send_text (websocket : WebSocket) (msg : message) : io unit :=
  λ net,
    ([(websocket, msg)],
     match net websocket with
     | None => Return tt
     | Some e => Raise e
     end).

(** [try: body / except: pass]. *)
Definition try_except_pass (body : io unit) : io unit :=
  λ net, let '(tr, _) := body net in (tr, Return tt).

(** The writes that reached their websocket. *)
Definition delivered (net : transport) (tr : list (WebSocket * message))
    : list (WebSocket * message) :=
  filter (λ s, net s.1 = None) tr.

(** ** Sending (server.py, lines 62-73) *)

(** [ConnectionManager.send_personal_message]. Nothing checks that [user_id]
    is a [str]: the websocket endpoint passes whatever the frame carries. *)
Definition send_personal_message (msg : message) (user_id : json)
    (room_id : string) (self : ConnectionManager) : io unit :=
  match active_connections self !! room_id with
  | None => mret tt
  | Some conns =>
      match as_key user_id with
      | Unhashable => raise TypeError
      | OtherKey => mret tt
      | StrKey u =>
          match PyDict.get u conns with
          | Some websocket => send_text websocket msg
          | None => mret tt
          end
      end
  end.

(** The [for] loop of [broadcast_to_room] over [items()]. *)
Fixpoint broadcast_loop (msg : message) (exclude_user : option string)
    (items : list (string * WebSocket)) : io unit :=
  match items with
  | [] => mret tt
  | (user_id, websocket) :: rest =>
      (if decide (Some user_id ≠ exclude_user)
       then try_except_pass (send_text websocket msg)
       else mret tt) ;;
      broadcast_loop msg exclude_user rest
  end.

(** [ConnectionManager.broadcast_to_room]; [exclude_user] defaults to
    [None]. *)
Definition broadcast_to_room (msg : message) (room_id : string)
    (exclude_user : option string) (self : ConnectionManager) : io unit :=
  match active_connections self !! room_id with
  | None => mret tt
  | Some conns => broadcast_loop msg exclude_user conns
  end.

(** ** The websocket endpoint (server.py, lines 488-521) *)

(** What [await websocket.receive_text()] yields: a text frame, given with
    the result of [json.loads] on it ([None] when it raises
    [JSONDecodeError]), or the [WebSocketDisconnect] raised when the peer is
    gone. *)
Inductive received : Type :=
  | Text (data : string) (loaded : option json)
  | Disconnected.

Inductive session_state : Type :=
  | Active
  | Closed
  | Aborted (e : exn).

(** The body of the [while True] loop for one receive. *)
Definition loop_body (ev : received) (room_id user_id : string)
    (self : ConnectionManager) : io unit :=
  match ev with
  | Disconnected => raise WebSocketDisconnect
  | Text data loaded =>
      message_data ← lift (match loaded with
                           | Some v => Return v
                           | None => Raise JSONDecodeError
                           end);
      ty ← lift (subscript message_data "type");
      if eq_str ty "webrtc_offer" then
        to_user ← lift (subscript message_data "to_user");
        send_personal_message (Raw data) to_user room_id self
      else if eq_str ty "webrtc_answer" then
        to_user ← lift (subscript message_data "to_user");
        send_personal_message (Raw data) to_user room_id self
      else if eq_str ty "ice_candidate" then
        to_user ← lift (subscript message_data "to_user");
        send_personal_message (Raw data) to_user room_id self
      else
        broadcast_to_room (Raw data) room_id (Some user_id) self
  end.

(** The notification of lines 516-519. *)
Definition user_disconnected (user_id : string) : message :=
  Dumps (JObj [("type", JStr "user_disconnected"); ("user_id", JStr user_id)]).

(** One turn of the loop under its [try]: [WebSocketDisconnect] is the only
    exception with a handler, any other leaves the endpoint. *)
Definition websocket_step (ev : received) (room_id user_id : string)
    (self : ConnectionManager) (net : transport)
    : ConnectionManager * list (WebSocket * message) * session_state :=
  match loop_body ev room_id user_id self net with
  | (tr, Return _) => (self, tr, Active)
  | (tr, Raise WebSocketDisconnect) =>
      match disconnect user_id room_id self with
      | (self', Return _) =>
          match broadcast_to_room (user_disconnected user_id) room_id None self' net with
          | (tr', Return _) => (self', tr ++ tr', Closed)
          | (tr', Raise e) => (self', tr ++ tr', Aborted e)
          end
      | (self', Raise e) => (self', tr, Aborted e)
      end
  | (tr, Raise e) => (self, tr, Aborted e)
  end.

(** The loop over the frames a connection receives; it stops with the first
    turn that does not leave the session active. *)
Fixpoint websocket_loop (evs : list received) (room_id user_id : string)
    (self : ConnectionManager) (net : transport)
    : ConnectionManager * list (WebSocket * message) * session_state :=
  match evs with
  | [] => (self, [], Active)
  | ev :: rest =>
      match websocket_step ev room_id user_id self net with
      | (self', tr, Active) =>
          let '(self'', tr', st) := websocket_loop rest room_id user_id self' net in
          (self'', tr ++ tr', st)
      | stopped => stopped
      end
  end.

(** [websocket_endpoint]: register, then loop. *)
Definition websocket_endpoint (websocket : WebSocket) (room_id user_id : string)
    (evs : list received) (self : ConnectionManager) (net : transport)
    : ConnectionManager * list (WebSocket * message) * session_state :=
  match connect websocket user_id room_id self with
  | (self', Return _) => websocket_loop evs room_id user_id self' net
  | (self', Raise e) => (self', [], Aborted e)
  end.

(** ** Request-style relay endpoints (server.py, lines 421-458)

    The bodies run once [get_current_user] has accepted the caller. *)

Record WebRTCOffer : Type := {
  offer_room_id : string;
  offer_from_user : string;
  offer_to_user : string;
  offer : json
}.

Record WebRTCAnswer : Type := {
  answer_room_id : string;
  answer_from_user : string;
  answer_to_user : string;
  answer : json
}.

Record ICECandidate : Type := {
  candidate_room_id : string;
  candidate_from_user : string;
  candidate_to_user : string;
  candidate : json
}.

Definition send_offer (offer_data : WebRTCOffer) (self : ConnectionManager)
    : io json :=
  send_personal_message
    (Dumps (JObj [("type", JStr "webrtc_offer");
                  ("from_user", JStr (offer_from_user offer_data));
                  ("offer", offer offer_data)]))
    (JStr (offer_to_user offer_data)) (offer_room_id offer_data) self ;;
  mret (JObj [("message", JStr "Offer sent")]).

Definition send_answer (answer_data : WebRTCAnswer) (self : ConnectionManager)
    : io json :=
  send_personal_message
    (Dumps (JObj [("type", JStr "webrtc_answer");
                  ("from_user", JStr (answer_from_user answer_data));
                  ("answer", answer answer_data)]))
    (JStr (answer_to_user answer_data)) (answer_room_id answer_data) self ;;
  mret (JObj [("message", JStr "Answer sent")]).

Definition send_ice_candidate (candidate_data : ICECandidate)
    (self : ConnectionManager) : io json :=
  send_personal_message
    (Dumps (JObj [("type", JStr "ice_candidate");
                  ("from_user", JStr (candidate_from_user candidate_data));
                  ("candidate", candidate candidate_data)]))
    (JStr (candidate_to_user candidate_data)) (candidate_room_id candidate_data) self ;;
  mret (JObj [("message", JStr "ICE candidate sent")]).

(** ** The room store and [leave_room] (server.py, lines 110-120, 367-397) *)

Module ChatRoom.
Record t : Type := mk {
  id : string;
  name : option string;
  language : string;
  level : string;
  max_users : Z;
  is_private : bool;
  created_by : string;
  participants : list string;
  active_speakers : list string
}.
End ChatRoom.

(** [db.rooms]: the documents of the collection, in storage order. Every
    query of the endpoint selects on the [id] field and acts on the first
    document that matches. *)
Fixpoint find_one (room_id : string) (rooms : list ChatRoom.t)
    : option ChatRoom.t :=
  match rooms with
  | [] => None
  | room :: rest =>
      if decide (ChatRoom.id room = room_id) then Some room
      else find_one room_id rest
  end.

Fixpoint update_one (room_id : string) (update : ChatRoom.t → ChatRoom.t)
    (rooms : list ChatRoom.t) : list ChatRoom.t :=
  match rooms with
  | [] => []
  | room :: rest =>
      if decide (ChatRoom.id room = room_id) then update room :: rest
      else room :: update_one room_id update rest
  end.

Fixpoint delete_one (room_id : string) (rooms : list ChatRoom.t)
    : list ChatRoom.t :=
  match rooms with
  | [] => []
  | room :: rest =>
      if decide (ChatRoom.id room = room_id) then rest
      else room :: delete_one room_id rest
  end.

(** [$pull]: every occurrence of the value leaves the array. *)
Definition pull (x : string) (l : list string) : list string :=
  filter (λ y, y ≠ x) l.

(** The update document of line 376. *)
Definition pull_user (user_id : string) (room : ChatRoom.t) : ChatRoom.t :=
  ChatRoom.mk (ChatRoom.id room) (ChatRoom.name room) (ChatRoom.language room)
    (ChatRoom.level room) (ChatRoom.max_users room) (ChatRoom.is_private room)
    (ChatRoom.created_by room)
    (pull user_id (ChatRoom.participants room))
    (pull user_id (ChatRoom.active_speakers room)).

(** The notification of lines 384-388. *)
Definition user_left (user_id room_id : string) : message :=
  Dumps (JObj [("type", JStr "user_left"); ("user_id", JStr user_id);
               ("room_id", JStr room_id)]).

(** [leave_room] for the authenticated user [current_user_id]: the store and
    the manager after the call, the writes made, and the response. *)
Definition leave_room (room_id current_user_id : string)
    (rooms : list ChatRoom.t) (self : ConnectionManager) (net : transport)
    : list ChatRoom.t * ConnectionManager * list (WebSocket * message) * outcome json :=
  match find_one room_id rooms with
  | None => (rooms, self, [], Raise (HTTPException 404))
  | Some room =>
      let rooms1 :=
        if decide (current_user_id ∈ ChatRoom.participants room)
        then update_one room_id (pull_user current_user_id) rooms
        else rooms in
      match disconnect current_user_id room_id self with
      | (self1, Raise e) => (rooms1, self1, [], Raise e)
      | (self1, Return _) =>
          match broadcast_to_room (user_left current_user_id room_id) room_id None self1 net with
          | (tr, Raise e) => (rooms1, self1, tr, Raise e)
          | (tr, Return _) =>
              match find_one room_id rooms1 with
              | None => (rooms1, self1, tr, Raise TypeError)
              | Some updated_room =>
                  let rooms2 :=
                    if decide (ChatRoom.participants updated_room = [])
                    then delete_one room_id rooms1
                    else rooms1 in
                  (rooms2, self1, tr,
                   Return (JObj [("message", JStr "Successfully left room")]))
              end
          end
      end
  end.

(** ** The registry invariant *)

Record registry_inv (m : ConnectionManager) : Prop := {
  inv_same_rooms : ∀ r,
    is_Some (active_connections m !! r) ↔ is_Some (room_participants m !! r);
  inv_not_empty : ∀ r conns,
    active_connections m !! r = Some conns → conns ≠ [];
  inv_keys_nodup : ∀ r conns,
    active_connections m !! r = Some conns → NoDup conns.*1;
  inv_members_nodup : ∀ r ps,
    room_participants m !! r = Some ps → NoDup ps;
  inv_same_users : ∀ r conns ps,
    active_connections m !! r = Some conns →
    room_participants m !! r = Some ps →
    ∀ u, u ∈ ps ↔ u ∈ conns.*1
}.

(** ** Frames as the endpoint classifies them *)

(** The three [type] values that are relayed to one target. *)
Definition targeted (ty : json) : bool :=
  eq_str ty "webrtc_offer" || eq_str ty "webrtc_answer" || eq_str ty "ice_candidate".

(** A frame that is not a signaling message the endpoint can read: text that
    is not JSON, JSON that is not an object or has no [type], or a targeted
    [type] without [to_user]. An object with any other [type] is a generic
    broadcast frame. *)
Definition parse_fails (loaded : option json) : bool :=
  match loaded with
  | None => true
  | Some v =>
      match subscript v "type" with
      | Raise _ => true
      | Return ty =>
          if targeted ty then
            match subscript v "to_user" with
            | Raise _ => true
            | Return _ => false
            end
          else false
      end
  end.

(** ** Two statements of the specification, as it words them *)

(** "An inbound frame that fails to parse as a known signaling variant does
    not tear down the connection: the frame is ignored and the session
    continues." *)
Definition malformed_frames_ignored : Prop :=
  ∀ (m : ConnectionManager) (net : transport) (room user data : string)
    (loaded : option json),
    reachable m →
    is_Some (lookup_handle room user m) →
    parse_fails loaded = true →
    (websocket_step (Text data loaded) room user m net).2 = Active.


(** ** Concrete states for the examples *)

(** Room r1 after A (websocket 1) and B (websocket 2) have connected. *)
Definition registry_r1 : ConnectionManager :=
  (run_ops [Connect 1 "A" "r1"; Connect 2 "B" "r1"] manager_init).1.

(** A transport on which every write succeeds. *)
Definition reliable : transport := λ _, None.


(** ** Users, room responses and the other room endpoints
       (server.py, lines 78-165, 295-365, 399-418, 460-485)

    A [datetime] is a timestamp, and each reading of the clock, like each new
    uuid, is an argument of the function that takes it. The [created_at] of a
    room, which no endpoint reads, is left out of the room records. *)

Module User.
Record t : Type := mk {
  id : string;
  email : string;
  username : string;
  password_hash : string;
  avatar_url : option string;
  is_online : bool;
  created_at : Z;
  last_active : Z
}.
End User.

Module UserResponse.
Record t : Type := mk {
  id : string;
  email : string;
  username : string;
  avatar_url : option string;
  is_online : bool;
  created_at : Z
}.
End UserResponse.

(** [UserResponse] built from a stored user: the fields of the response
    model are kept, the others dropped. *)
Definition user_response (user : User.t) : UserResponse.t :=
  UserResponse.mk (User.id user) (User.email user) (User.username user)
    (User.avatar_url user) (User.is_online user) (User.created_at user).

Module ChatRoomCreate.
Record t : Type := mk {
  name : option string;
  language : string;
  level : string;
  max_users : Z;
  is_private : bool
}.
End ChatRoomCreate.

Module ChatRoomResponse.
Record t : Type := mk {
  id : string;
  name : option string;
  language : string;
  level : string;
  max_users : Z;
  is_private : bool;
  created_by : string;
  participants : list UserResponse.t;
  participant_count : Z;
  is_full : bool;
  active_speakers : list string
}.
End ChatRoomResponse.

(** [db.users.find({"id": {"$in": ids}}).to_list(1000)]. *)
Definition find_users_in (ids : list string) (users : list User.t) : list User.t :=
  take 1000 (filter (λ user, User.id user ∈ ids) users).

(** [len(room["participants"]) >= room["max_users"]]. *)
Definition room_is_full (room : ChatRoom.t) : bool :=
  bool_decide (ChatRoom.max_users room ≤ Z.of_nat (length (ChatRoom.participants room)))%Z.

(** The response built for one stored room by [get_rooms] and [get_room]. *)
Definition room_response (users : list User.t) (room : ChatRoom.t)
    : ChatRoomResponse.t :=
  let participants :=
    if decide (ChatRoom.participants room = []) then []
    else user_response <$> find_users_in (ChatRoom.participants room) users in
  ChatRoomResponse.mk (ChatRoom.id room) (ChatRoom.name room)
    (ChatRoom.language room) (ChatRoom.level room) (ChatRoom.max_users room)
    (ChatRoom.is_private room) (ChatRoom.created_by room)
    participants
    (Z.of_nat (length (ChatRoom.participants room)))
    (room_is_full room)
    (ChatRoom.active_speakers room).

(** [get_rooms]: [db.rooms.find().to_list(1000)], then one response each. *)
Definition get_rooms (rooms : list ChatRoom.t) (users : list User.t)
    : list ChatRoomResponse.t :=
  room_response users <$> take 1000 rooms.

(** [get_room]. *)
Definition get_room (room_id : string) (rooms : list ChatRoom.t)
    (users : list User.t) : outcome ChatRoomResponse.t :=
  match find_one room_id rooms with
  | None => Raise (HTTPException 404)
  | Some room => Return (room_response users room)
  end.



(** [$push] on [participants]. *)
Definition push_participant (user_id : string) (room : ChatRoom.t) : ChatRoom.t :=
  ChatRoom.mk (ChatRoom.id room) (ChatRoom.name room) (ChatRoom.language room)
    (ChatRoom.level room) (ChatRoom.max_users room) (ChatRoom.is_private room)
    (ChatRoom.created_by room)
    (ChatRoom.participants room ++ [user_id])
    (ChatRoom.active_speakers room).

(** The Python values that [join_room] hands to [json.dumps]. *)
#[warnings="-register-all"]
Inductive pyval : Type :=
  | PyNone
  | PyBool (b : bool)
  | PyStr (s : string)
  | PyDatetime (t : Z)
  | PyDict (fields : list (string * pyval)).

(** The JSON value of a Python value; a [datetime] has none. *)
Fixpoint to_json (v : pyval) : option json :=
  match v with
  | PyNone => Some JNull
  | PyBool b => Some (JBool b)
  | PyStr s => Some (JStr s)
  | PyDatetime _ => None
  | PyDict fields =>
      JObj <$>
        (fix fields_to_json (l : list (string * pyval))
           : option (list (string * json)) :=
           match l with
           | [] => Some []
           | (k, x) :: rest =>
               match to_json x with
               | None => None
               | Some j =>
                   match fields_to_json rest with
                   | None => None
                   | Some js => Some ((k, j) :: js)
                   end
               end
           end) fields
  end.

(** [json.dumps] with its default encoder: [TypeError] for a value that is
    not JSON serializable. *)
Definition json_dumps (v : pyval) : outcome message :=
  match to_json v with
  | Some j => Return (Dumps j)
  | None => Raise TypeError
  end.

(** [.dict()] of a [UserResponse]: [created_at] stays a [datetime]. *)
Definition user_response_dict (r : UserResponse.t) : pyval :=
  PyDict [("id", PyStr (UserResponse.id r));
          ("email", PyStr (UserResponse.email r));
          ("username", PyStr (UserResponse.username r));
          ("avatar_url", match UserResponse.avatar_url r with
                         | Some url => PyStr url
                         | None => PyNone
                         end);
          ("is_online", PyBool (UserResponse.is_online r));
          ("created_at", PyDatetime (UserResponse.created_at r))].

(** The object of lines 356-360. *)
Definition user_joined (current_user : User.t) (room_id : string) : pyval :=
  PyDict [("type", PyStr "user_joined");
          ("user", user_response_dict (user_response current_user));
          ("room_id", PyStr room_id)].

(** [join_room] for the authenticated [current_user]. The arguments of
    [broadcast_to_room], [json.dumps] among them, are evaluated before it is
    called. The registry is only read. *)
Definition join_room (room_id : string) (current_user : User.t)
    (rooms : list ChatRoom.t) (self : ConnectionManager) (net : transport)
    : list ChatRoom.t * list (WebSocket * message) * outcome json :=
  match find_one room_id rooms with
  | None => (rooms, [], Raise (HTTPException 404))
  | Some room =>
      if room_is_full room then (rooms, [], Raise (HTTPException 400))
      else
        let rooms1 :=
          if decide (User.id current_user ∈ ChatRoom.participants room) then rooms
          else update_one room_id (push_participant (User.id current_user)) rooms in
        match json_dumps (user_joined current_user room_id) with
        | Raise e => (rooms1, [], Raise e)
        | Return msg =>
            match broadcast_to_room msg room_id (Some (User.id current_user))
                    self net with
            | (tr, Raise e) => (rooms1, tr, Raise e)
            | (tr, Return _) =>
                (rooms1, tr,
                 Return (JObj [("message", JStr "Successfully joined room")]))
            end
        end
  end.

Record VoiceStatus : Type := {
  voice_room_id : string;
  voice_user_id : string;
  is_speaking : bool;
  is_muted : bool
}.

(** [$addToSet]. *)
Definition add_to_set (x : string) (l : list string) : list string :=
  if decide (x ∈ l) then l else l ++ [x].

Definition add_speaker (user_id : string) (room : ChatRoom.t) : ChatRoom.t :=
  ChatRoom.mk (ChatRoom.id room) (ChatRoom.name room) (ChatRoom.language room)
    (ChatRoom.level room) (ChatRoom.max_users room) (ChatRoom.is_private room)
    (ChatRoom.created_by room) (ChatRoom.participants room)
    (add_to_set user_id (ChatRoom.active_speakers room)).

Definition pull_speaker (user_id : string) (room : ChatRoom.t) : ChatRoom.t :=
  ChatRoom.mk (ChatRoom.id room) (ChatRoom.name room) (ChatRoom.language room)
    (ChatRoom.level room) (ChatRoom.max_users room) (ChatRoom.is_private room)
    (ChatRoom.created_by room) (ChatRoom.participants room)
    (pull user_id (ChatRoom.active_speakers room)).

(** The notification of lines 475-480. *)
Definition voice_status_update (voice_data : VoiceStatus) : message :=
  Dumps (JObj [("type", JStr "voice_status_update");
               ("user_id", JStr (voice_user_id voice_data));
               ("is_speaking", JBool (is_speaking voice_data));
               ("is_muted", JBool (is_muted voice_data))]).

(** [update_voice_status] for the authenticated user [current_user_id]. *)
Definition update_voice_status (voice_data : VoiceStatus)
    (current_user_id : string)
    (rooms : list ChatRoom.t) (self : ConnectionManager) (net : transport)
    : list ChatRoom.t * list (WebSocket * message) * outcome json :=
  let rooms1 :=
    if is_speaking voice_data
    then update_one (voice_room_id voice_data)
           (add_speaker (voice_user_id voice_data)) rooms
    else update_one (voice_room_id voice_data)
           (pull_speaker (voice_user_id voice_data)) rooms in
  match broadcast_to_room (voice_status_update voice_data)
          (voice_room_id voice_data) (Some current_user_id) self net with
  | (tr, Raise e) => (rooms1, tr, Raise e)
  | (tr, Return _) =>
      (rooms1, tr, Return (JObj [("message", JStr "Voice status updated")]))
  end.

(** A store in which every room has its own id and lists no participant
    twice: what [create_room] (with fresh ids), [join_room] and [leave_room]
    build. *)
Definition store_ok (rooms : list ChatRoom.t) : Prop :=
  NoDup (ChatRoom.id <$> rooms) ∧
  Forall (λ room, NoDup (ChatRoom.participants room)) rooms.

(** No room holds more participants than its [max_users]. *)
Definition within_capacity (rooms : list ChatRoom.t) : Prop :=
  Forall (λ room,
            (Z.of_nat (length (ChatRoom.participants room))
             ≤ ChatRoom.max_users room)%Z) rooms.

(** ** Accounts (server.py, lines 88-108, 168-292)

    [passlib] and [jose] are called, not modelled. The hash that
    [get_password_hash] returns is an argument of [register] (bcrypt salts
    it, so it is not a function of the password); [verify_password],
    [jwt.encode] and [jwt.decode] with the server's key are the fields of
    [Libraries], [jwt_decode] giving [None] where [jwt.decode] raises
    [JWTError]; [verify_password] can raise, as passlib does on a hash it
    does not recognise. Durations and timestamps are in microseconds, the
    resolution of [timedelta] and [datetime]; the store keeps a [datetime] to
    the millisecond. *)

Inductive claim : Type :=
  | ClaimStr (s : string)
  | ClaimTime (t : Z).

Class Libraries : Type := {
  verify_password : string → string → outcome bool;
  jwt_encode : list (string * claim) → string;
  jwt_decode : string → option (list (string * claim))
}.

Definition minutes (n : Z) : Z := (n * 60 * 1000000)%Z.

Definition ACCESS_TOKEN_EXPIRE_MINUTES : Z := 30.

Record UserCreate : Type := {
  create_email : string;
  create_username : string;
  create_password : string
}.

Record UserLogin : Type := {
  login_email : string;
  login_password : string
}.

Module Token.
Record t : Type := mk {
  access_token : string;
  token_type : string;
  user : UserResponse.t
}.
End Token.

(** [db.users.find_one({"email": email})]. *)
Fixpoint find_user_by_email (email : string) (users : list User.t)
    : option User.t :=
  match users with
  | [] => None
  | user :: rest =>
      if decide (User.email user = email) then Some user
      else find_user_by_email email rest
  end.

(** [db.users.find_one({"username": username})]. *)
Fixpoint find_user_by_username (username : string) (users : list User.t)
    : option User.t :=
  match users with
  | [] => None
  | user :: rest =>
      if decide (User.username user = username) then Some user
      else find_user_by_username username rest
  end.

(** [db.users.update_one({"email": email}, {"$set": ...})]. *)
Fixpoint update_user_by_email (email : string) (update : User.t → User.t)
    (users : list User.t) : list User.t :=
  match users with
  | [] => []
  | user :: rest =>
      if decide (User.email user = email) then update user :: rest
      else user :: update_user_by_email email update rest
  end.

(** A [datetime] as BSON stores it and as it is read back: the milliseconds
    are kept, the microseconds below them dropped. *)
Definition bson_datetime (t : Z) : Z := (t / 1000 * 1000)%Z.

(** The document that [insert_one] stores for a user. *)
Definition bson_user (user : User.t) : User.t :=
  User.mk (User.id user) (User.email user) (User.username user)
    (User.password_hash user) (User.avatar_url user) (User.is_online user)
    (bson_datetime (User.created_at user))
    (bson_datetime (User.last_active user)).

(** The [$set] of [login] and [logout] on a stored user; [now] is the
    reading of the clock. *)
Definition set_online (online : bool) (now : Z) (user : User.t) : User.t :=
  User.mk (User.id user) (User.email user) (User.username user)
    (User.password_hash user) (User.avatar_url user) online
    (User.created_at user) (bson_datetime now).

Section accounts.
Context `{Libraries}.

(** [create_access_token]; [now] is the reading of [datetime.utcnow()]. A
    [timedelta] of zero is false in [if expires_delta]. *)
Definition create_access_token (data : list (string * claim))
    (expires_delta : option Z) (now : Z) : string :=
  let expire :=
    match expires_delta with
    | Some delta => if decide (delta = 0%Z) then (now + minutes 15)%Z
                    else (now + delta)%Z
    | None => (now + minutes 15)%Z
    end in
  jwt_encode (PyDict.set "exp" (ClaimTime expire) data).

(** [get_current_user] on the bearer token of the request. *)
Definition get_current_user (token : string) (users : list User.t)
    : outcome User.t :=
  match jwt_decode token with
  | None => Raise (HTTPException 401)
  | Some payload =>
      match PyDict.get "sub" payload with
      | None => Raise (HTTPException 401)
      | Some (ClaimStr email) =>
          match find_user_by_email email users with
          | None => Raise (HTTPException 401)
          | Some user => Return user
          end
      | Some (ClaimTime _) => Raise (HTTPException 401)
      end
  end.

(** [register]. [new_id] is the uuid drawn for the user, [hashed_password]
    what [get_password_hash] returned, [created], [active] and [token_time]
    the three readings of the clock. *)
Definition register (user_data : UserCreate) (new_id hashed_password : string)
    (created active token_time : Z) (users : list User.t)
    : list User.t * outcome Token.t :=
  match find_user_by_email (create_email user_data) users with
  | Some _ => (users, Raise (HTTPException 400))
  | None =>
      match find_user_by_username (create_username user_data) users with
      | Some _ => (users, Raise (HTTPException 400))
      | None =>
          let user :=
            User.mk new_id (create_email user_data) (create_username user_data)
              hashed_password None true created active in
          (users ++ [bson_user user],
           Return (Token.mk
                     (create_access_token [("sub", ClaimStr (User.email user))]
                        (Some (minutes ACCESS_TOKEN_EXPIRE_MINUTES)) token_time)
                     "bearer" (user_response user)))
      end
  end.

(** [login]; [now] and [token_time] are the two readings of the clock. *)
Definition login (user_data : UserLogin) (now token_time : Z)
    (users : list User.t) : list User.t * outcome Token.t :=
  match find_user_by_email (login_email user_data) users with
  | None => (users, Raise (HTTPException 401))
  | Some user =>
      match verify_password (login_password user_data)
              (User.password_hash user) with
      | Raise e => (users, Raise e)
      | Return false => (users, Raise (HTTPException 401))
      | Return true =>
          (update_user_by_email (login_email user_data) (set_online true now)
             users,
           Return (Token.mk
                     (create_access_token [("sub", ClaimStr (User.email user))]
                        (Some (minutes ACCESS_TOKEN_EXPIRE_MINUTES)) token_time)
                     "bearer" (user_response user)))
      end
  end.

(** [logout] for the authenticated [current_user]. *)
Definition logout (current_user : User.t) (now : Z) (users : list User.t)
    : list User.t * json :=
  (update_user_by_email (User.email current_user) (set_online false now) users,
   JObj [("message", JStr "Successfully logged out")]).

(** [get_me]. *)
Definition get_me (current_user : User.t) : UserResponse.t :=
  user_response current_user.

End accounts.

(** No two stored users share an email or a username. *)
Definition accounts_ok (users : list User.t) : Prop :=
  NoDup (User.email <$> users) ∧ NoDup (User.username <$> users).

(** Libraries for the examples: the hash of a password is the password
    after a marker, and a hash without the marker is not recognised; a token
    is the [sub] claim it carries and decodes to that claim with an expiry of
    30 minutes. *)
Definition toy_libraries : Libraries := {|
  verify_password := λ plain hashed,
    if String.prefix "$2b$" hashed
    then Return (bool_decide (hashed = String.append "$2b$" plain))
    else Raise UnknownHashError;
  jwt_encode := λ claims,
    match PyDict.get "sub" claims with
    | Some (ClaimStr s) => s
    | _ => EmptyString
    end;
  jwt_decode := λ token,
    Some [("sub", ClaimStr token); ("exp", ClaimTime (minutes 30))]
|}.

(** More concrete values for the examples. *)

(** A transport on which every write to the websocket 1 fails. *)
Definition without_1 : transport :=
  λ ws, if decide (ws = 1) then Some RuntimeError else None.

(** A transport on which the websocket 2 is gone. *)
Definition without_2 : transport :=
  λ ws, if decide (ws = 2) then Some WebSocketDisconnect else None.

Definition offer_for_B : json :=
  JObj [("type", JStr "webrtc_offer"); ("to_user", JStr "B")].

Definition offer_for_7 : json :=
  JObj [("type", JStr "webrtc_offer"); ("to_user", JNum "7")].

Definition chat_frame : json :=
  JObj [("type", JStr "chat"); ("text", JStr "hi")].

(** A stored room with B in it and room for more. *)
Definition lobby : ChatRoom.t :=
  ChatRoom.mk "r1" None "en" "beginner" 8 false "B" ["B"] [].

Definition user_A : User.t :=
  User.mk "A" "a@example.org" "ay" "$2b$pw" None true 0 0.

Definition user_B : User.t :=
  User.mk "B" "b@example.org" "bee" "$2b$secret" None false 0 0.

Definition create_C : UserCreate :=
  {| create_email := "c@example.org"; create_username := "cee";
     create_password := "pw" |}.

Definition login_B : UserLogin :=
  {| login_email := "b@example.org"; login_password := "secret" |}.

(** A text frame that parses and is not an offer, an answer or an ICE
    candidate: the endpoint broadcasts it. *)
Definition broadcast_frame (ev : received) : bool :=
  match ev with
  | Text _ (Some v) =>
      match subscript v "type" with
      | Return ty => negb (targeted ty)
      | Raise _ => false
      end
  | _ => false
  end.

(** The text of a received frame. *)
Definition frame_text (ev : received) : string :=
  match ev with
  | Text data _ => data
  | Disconnected => EmptyString
  end.

(** * Properties *)

(** ** Facts about ordered dictionaries and list removal *)

Section pydict_facts.
Context {V : Type}.
Implicit Types (d : list (string * V)) (k : string) (v : V).

Lemma get_None k d : PyDict.get k d = None ↔ k ∉ d.*1.
Proof.
  induction d as [|[k' v'] d IH]; simpl.
  - split; [intros _; apply not_elem_of_nil | done].
  - case_decide as Hk; subst.
    + split; [done | intros []; left].
    + rewrite IH not_elem_of_cons. naive_solver.
Qed.

Lemma get_Some_elem k v d : PyDict.get k d = Some v → (k, v) ∈ d.
Proof.
  induction d as [|[k' v'] d IH]; simpl; [done|].
  case_decide; subst.
  - intros [= ->]. left.
  - intros ?. right. auto.
Qed.

Lemma get_is_Some k d : is_Some (PyDict.get k d) ↔ k ∈ d.*1.
Proof.
  rewrite -not_eq_None_Some get_None.
  destruct (decide (k ∈ d.*1)); naive_solver.
Qed.

Lemma contains_true k d : PyDict.contains k d = true ↔ k ∈ d.*1.
Proof.
  rewrite -get_is_Some /PyDict.contains.
  destruct (PyDict.get k d); split; (done || eauto || by intros []).
Qed.

Lemma get_set_eq k v d : PyDict.get k (PyDict.set k v d) = Some v.
Proof.
  induction d as [|[k' v'] d IH]; simpl.
  - by rewrite decide_True.
  - case_decide; simpl; [by rewrite decide_True | by rewrite decide_False].
Qed.

Lemma get_set_ne k k' v d :
  k ≠ k' → PyDict.get k' (PyDict.set k v d) = PyDict.get k' d.
Proof.
  intros Hne. induction d as [|[k0 v0] d IH]; simpl.
  - by rewrite decide_False.
  - destruct (decide (k0 = k)) as [->|]; simpl.
    + by rewrite !decide_False.
    + by rewrite IH.
Qed.

Lemma elem_keys_set k k' v d :
  k' ∈ (PyDict.set k v d).*1 ↔ k' = k ∨ k' ∈ d.*1.
Proof.
  induction d as [|[k0 v0] d IH]; simpl.
  - rewrite list_elem_of_singleton. set_solver.
  - destruct (decide (k0 = k)) as [->|]; simpl.
    + rewrite !elem_of_cons. naive_solver.
    + rewrite !elem_of_cons IH. naive_solver.
Qed.

Lemma NoDup_keys_set k v d : NoDup d.*1 → NoDup (PyDict.set k v d).*1.
Proof.
  induction d as [|[k0 v0] d IH]; simpl; intros Hnd.
  - apply NoDup_singleton.
  - apply NoDup_cons in Hnd as [Hk0 Hnd].
    destruct (decide (k0 = k)) as [->|]; simpl.
    + by apply NoDup_cons.
    + apply NoDup_cons. split; [|auto].
      rewrite elem_keys_set. naive_solver.
Qed.

Lemma set_not_nil k v d : PyDict.set k v d ≠ [].
Proof. destruct d as [|[k0 v0] d]; simpl; [done|]. by case_decide. Qed.

(** Overwriting keeps the number of entries, a new key adds one. *)
Lemma length_set k v d :
  length (PyDict.set k v d) =
  if PyDict.contains k d then length d else S (length d).
Proof.
  induction d as [|[k0 v0] d IH]; simpl; [done|].
  unfold PyDict.contains in *. simpl.
  destruct (decide (k0 = k)); simpl; [done|].
  rewrite IH. by destruct (PyDict.get k d).
Qed.

Lemma keys_del k d : (PyDict.del k d).*1 = list_remove_first k d.*1.
Proof.
  induction d as [|[k0 v0] d IH]; simpl; [done|].
  case_decide; simpl; [done | by f_equal].
Qed.

Lemma get_del_ne k k' d :
  k ≠ k' → PyDict.get k' (PyDict.del k d) = PyDict.get k' d.
Proof.
  intros Hne. induction d as [|[k0 v0] d IH]; simpl; [done|].
  destruct (decide (k0 = k)) as [->|]; simpl.
  - by rewrite decide_False.
  - by rewrite IH.
Qed.

Lemma get_del_eq k d : NoDup d.*1 → PyDict.get k (PyDict.del k d) = None.
Proof.
  induction d as [|[k0 v0] d IH]; simpl; intros Hnd; [done|].
  apply NoDup_cons in Hnd as [Hk0 Hnd].
  destruct (decide (k0 = k)) as [->|]; simpl.
  - by apply get_None.
  - rewrite decide_False; auto.
Qed.

Lemma length_del k d :
  k ∈ d.*1 → S (length (PyDict.del k d)) = length d.
Proof.
  induction d as [|[k0 v0] d IH]; simpl.
  - by intros ?%elem_of_nil.
  - intros Hin. destruct (decide (k0 = k)) as [->|]; simpl; [done|].
    apply elem_of_cons in Hin as [|]; [congruence|]. by rewrite IH.
Qed.

Lemma is_empty_true d : PyDict.is_empty d = true ↔ d = [].
Proof. by destruct d. Qed.
End pydict_facts.

Lemma elem_remove_first (x y : string) (l : list string) :
  NoDup l → y ∈ list_remove_first x l ↔ y ∈ l ∧ y ≠ x.
Proof.
  induction l as [|z l IH]; simpl; intros Hnd.
  - set_solver.
  - apply NoDup_cons in Hnd as [Hz Hnd].
    destruct (decide (z = x)) as [->|].
    + rewrite elem_of_cons. naive_solver.
    + rewrite !elem_of_cons IH //. naive_solver.
Qed.

Lemma NoDup_remove_first (x : string) (l : list string) :
  NoDup l → NoDup (list_remove_first x l).
Proof.
  induction l as [|z l IH]; simpl; intros Hnd; [done|].
  apply NoDup_cons in Hnd as [Hz Hnd].
  case_decide; [done|].
  apply NoDup_cons. split; [|auto].
  rewrite elem_remove_first //. naive_solver.
Qed.

Lemma remove_first_absent (x : string) (l : list string) :
  x ∉ l → list_remove_first x l = l.
Proof.
  induction l as [|z l IH]; simpl; [done|].
  rewrite not_elem_of_cons. intros [? ?].
  rewrite decide_False; [congruence|]. by rewrite IH.
Qed.

(** ** What [connect] and [disconnect] compute *)

Lemma connect_new_room ws u r m :
  active_connections m !! r = None →
  connect ws u r m =
    ({| active_connections := <[r := [(u, ws)]]> (active_connections m);
        room_participants := <[r := [u]]> (room_participants m) |}, Return tt).
Proof.
  intros Hr. rewrite /connect Hr.
  destruct (decide (is_Some (@None (list (string * WebSocket))))) as [[? ?]|_]; [done|].
  rewrite /= !lookup_insert_eq.
  destruct (decide (u ∈ [])) as [?%elem_of_nil|_]; [done|].
  by rewrite /= !insert_insert_eq.
Qed.

Lemma connect_known_room ws u r m conns ps :
  active_connections m !! r = Some conns →
  room_participants m !! r = Some ps →
  connect ws u r m =
    ({| active_connections := <[r := PyDict.set u ws conns]> (active_connections m);
        room_participants :=
          if decide (u ∈ ps) then room_participants m
          else <[r := ps ++ [u]]> (room_participants m) |}, Return tt).
Proof.
  intros Hr Hp. rewrite /connect Hr.
  destruct (decide (is_Some (Some conns))) as [_|[]]; [|by eauto].
  rewrite Hr /= Hp. by case_decide.
Qed.

Lemma disconnect_not_registered u r m :
  lookup_handle r u m = None → disconnect u r m = (m, Return tt).
Proof.
  rewrite /lookup_handle /disconnect /PyDict.contains.
  destruct (active_connections m !! r) as [conns|]; [|done].
  by intros ->.
Qed.

Lemma disconnect_registered u r m conns ps ws :
  active_connections m !! r = Some conns →
  PyDict.get u conns = Some ws →
  room_participants m !! r = Some ps →
  disconnect u r m =
    (if decide (PyDict.del u conns = []) then
       {| active_connections := delete r (active_connections m);
          room_participants := delete r (room_participants m) |}
     else
       {| active_connections := <[r := PyDict.del u conns]> (active_connections m);
          room_participants :=
            if decide (u ∈ ps)
            then <[r := list_remove_first u ps]> (room_participants m)
            else room_participants m |}, Return tt).
Proof.
  intros Hr Hu Hp. rewrite /disconnect /PyDict.contains Hr Hu /= Hp.
  destruct (PyDict.del u conns) as [|c rest] eqn:Hdel; simpl.
  - destruct (decide (@nil (string * WebSocket) = [])); [|done]. f_equal.
    case_decide; simpl; by rewrite !delete_insert_eq.
  - destruct (decide (c :: rest = [])); [done|]. by case_decide.
Qed.

(** ** The invariant is kept *)

Lemma registry_inv_init : registry_inv manager_init.
Proof. split; simpl; intros *; by rewrite ?lookup_empty. Qed.

(** In a state that satisfies the invariant a room of the connection map
    has a participant list. *)
Lemma inv_members_exist m r conns :
  registry_inv m → active_connections m !! r = Some conns →
  ∃ ps, room_participants m !! r = Some ps.
Proof. intros Hinv Hr. apply (inv_same_rooms m Hinv r). eauto. Qed.

Lemma inv_no_members m r :
  registry_inv m → active_connections m !! r = None →
  room_participants m !! r = None.
Proof.
  intros Hinv Hr. apply eq_None_not_Some. intros Hs.
  apply (inv_same_rooms m Hinv r) in Hs. rewrite Hr in Hs. by destruct Hs.
Qed.

(** Storing one room's connection map and participant list keeps the
    invariant when the two agree with each other. *)
Lemma registry_inv_store m r conns ps :
  registry_inv m →
  conns ≠ [] → NoDup conns.*1 → NoDup ps → (∀ u, u ∈ ps ↔ u ∈ conns.*1) →
  registry_inv
    {| active_connections := <[r := conns]> (active_connections m);
       room_participants := <[r := ps]> (room_participants m) |}.
Proof.
  intros Hinv Hne Hk Hp Hsame. split; simpl.
  - intros r0. rewrite !lookup_insert_is_Some'.
    by rewrite (inv_same_rooms m Hinv r0).
  - intros r0 c [[-> <-]|[_ Hc]]%lookup_insert_Some; [done|].
    by eapply inv_not_empty.
  - intros r0 c [[-> <-]|[_ Hc]]%lookup_insert_Some; [done|].
    by eapply inv_keys_nodup.
  - intros r0 p [[-> <-]|[_ Hc]]%lookup_insert_Some; [done|].
    by eapply inv_members_nodup.
  - intros r0 c p [[-> <-]|[Hr Hc]]%lookup_insert_Some.
    + rewrite lookup_insert_eq. by intros [= <-].
    + rewrite lookup_insert_ne //. by eapply inv_same_users.
Qed.

(** Dropping a room from both maps keeps the invariant. *)
Lemma registry_inv_drop m r :
  registry_inv m →
  registry_inv
    {| active_connections := delete r (active_connections m);
       room_participants := delete r (room_participants m) |}.
Proof.
  intros Hinv. split; simpl.
  - intros r0. rewrite !lookup_delete_is_Some.
    by rewrite (inv_same_rooms m Hinv r0).
  - intros r0 c [_ Hc]%lookup_delete_Some. by eapply inv_not_empty.
  - intros r0 c [_ Hc]%lookup_delete_Some. by eapply inv_keys_nodup.
  - intros r0 p [_ Hc]%lookup_delete_Some. by eapply inv_members_nodup.
  - intros r0 c p [_ Hc]%lookup_delete_Some [_ Hp]%lookup_delete_Some.
    by eapply inv_same_users.
Qed.

Lemma connect_inv ws u r m :
  registry_inv m →
  ∃ m', connect ws u r m = (m', Return tt) ∧ registry_inv m'.
Proof.
  intros Hinv. destruct (active_connections m !! r) as [conns|] eqn:Hr.
  - destruct (inv_members_exist m r conns Hinv Hr) as [ps Hp].
    rewrite (connect_known_room ws u r m conns ps) //.
    eexists; split; [done|].
    pose proof (inv_keys_nodup m Hinv r conns Hr) as Hk.
    pose proof (inv_members_nodup m Hinv r ps Hp) as Hnd.
    pose proof (inv_same_users m Hinv r conns ps Hr Hp) as Hsame.
    destruct (decide (u ∈ ps)) as [Hin|Hnin].
    + rewrite -{1}(insert_id (room_participants m) r ps) //.
      apply registry_inv_store; auto using set_not_nil, NoDup_keys_set.
      intros u0. rewrite elem_keys_set -Hsame. naive_solver.
    + apply registry_inv_store; auto using set_not_nil, NoDup_keys_set.
      * apply NoDup_app. split_and!; [done| |apply NoDup_singleton].
        intros x Hx ->%list_elem_of_singleton. done.
      * intros u0. rewrite elem_keys_set -Hsame elem_of_app list_elem_of_singleton.
        naive_solver.
  - rewrite connect_new_room //. eexists; split; [done|].
    apply registry_inv_store; auto.
    + apply NoDup_singleton.
    + apply NoDup_singleton.
Qed.

Lemma disconnect_inv u r m :
  registry_inv m →
  ∃ m', disconnect u r m = (m', Return tt) ∧ registry_inv m'.
Proof.
  intros Hinv. destruct (lookup_handle r u m) as [ws|] eqn:Hl.
  - rewrite /lookup_handle in Hl.
    destruct (active_connections m !! r) as [conns|] eqn:Hr; [|done].
    destruct (inv_members_exist m r conns Hinv Hr) as [ps Hp].
    rewrite (disconnect_registered u r m conns ps ws) //.
    eexists; split; [done|].
    pose proof (inv_keys_nodup m Hinv r conns Hr) as Hk.
    pose proof (inv_members_nodup m Hinv r ps Hp) as Hnd.
    pose proof (inv_same_users m Hinv r conns ps Hr Hp) as Hsame.
    case_decide as Hempty; [by apply registry_inv_drop|].
    rewrite decide_True.
    { apply Hsame, get_is_Some. eauto. }
    apply registry_inv_store; auto using NoDup_remove_first.
    + rewrite keys_del. by apply NoDup_remove_first.
    + intros u0. rewrite keys_del !elem_remove_first // Hsame //.
  - rewrite disconnect_not_registered //. eauto.
Qed.

(** Every reachable state satisfies the invariant, and no sequence of
    operations started from the initial state raises. *)
Lemma run_ops_inv ops m :
  registry_inv m →
  ∃ m', run_ops ops m = (m', Return tt) ∧ registry_inv m'.
Proof.
  revert m. induction ops as [|o ops IH]; intros m Hinv; simpl.
  - eauto.
  - assert (∃ m1, apply_op o m = (m1, Return tt) ∧ registry_inv m1)
      as (m1 & -> & Hinv1).
    { destruct o; simpl; [apply connect_inv | apply disconnect_inv]; done. }
    by apply IH.
Qed.

Lemma reachable_inv m : reachable m → registry_inv m.
Proof.
  intros [ops Hops].
  destruct (run_ops_inv ops manager_init registry_inv_init) as (m' & Hrun & Hinv).
  congruence.
Qed.


Lemma run_ops_app ops1 ops2 m m1 :
  run_ops ops1 m = (m1, Return tt) →
  run_ops (ops1 ++ ops2) m = run_ops ops2 m1.
Proof.
  revert m. induction ops1 as [|o ops1 IH]; intros m; simpl.
  - by intros [= ->].
  - destruct (apply_op o m) as [m0 [[]|e]]; [by apply IH | done].
Qed.

Lemma reachable_step o m m' :
  reachable m → apply_op o m = (m', Return tt) → reachable m'.
Proof.
  intros [ops Hops] Hstep. exists (ops ++ [o]).
  rewrite (run_ops_app _ _ _ _ Hops) /= Hstep //.
Qed.

(** ** Registry invariants over every run *)

(** C2. After every sequence of connect and disconnect operations (none of
    which raises), a room id is a key of the connection map exactly when some
    user has a handle registered in that room; and when a room holds a single
    connection, disconnecting that user deletes the room's entry from both
    maps. *)
Theorem room_entry_iff_connected (ops : list registry_op) :
  ∃ m, run_ops ops manager_init = (m, Return tt) ∧
    (∀ r, r ∈ dom (active_connections m) ↔
          ∃ u ws, lookup_handle r u m = Some ws) ∧
    (∀ r u ws, active_connections m !! r = Some [(u, ws)] →
       ∃ m', disconnect u r m = (m', Return tt) ∧
             (r ∉ dom (active_connections m')) ∧
             (r ∉ dom (room_participants m'))).
Proof.
  destruct (run_ops_inv ops manager_init registry_inv_init) as (m & Hrun & Hinv).
  exists m. split_and!; [done| |].
  - intros r. rewrite elem_of_dom /lookup_handle. split.
    + intros [conns Hr]. rewrite Hr.
      destruct conns as [|[u ws] rest]; [by apply inv_not_empty in Hr|].
      exists u, ws. by rewrite /= decide_True.
    + intros (u & ws & Hl).
      destruct (active_connections m !! r); [eauto | done].
  - intros r u ws Hr.
    destruct (inv_members_exist m r _ Hinv Hr) as [ps Hp].
    assert (PyDict.get u [(u, ws)] = Some ws) as Hget by (simpl; by case_decide).
    assert (PyDict.del u [(u, ws)] = []) as Hdel by (simpl; by case_decide).
    rewrite (disconnect_registered u r m [(u, ws)] ps ws) // Hdel.
    eexists; split; [done|].
    rewrite !not_elem_of_dom /= !lookup_delete_eq //.
Qed.

(** C10. After every sequence of connect and disconnect operations the two
    maps have the same room keys, and in every room the user ids keyed in the
    connection map are, as a set, the user ids of the participant list, which
    has no duplicates. *)
Theorem registry_maps_agree (ops : list registry_op) :
  ∃ m, run_ops ops manager_init = (m, Return tt) ∧
    dom (active_connections m) = dom (room_participants m) ∧
    (∀ r conns, active_connections m !! r = Some conns →
       ∃ ps, room_participants m !! r = Some ps ∧
             NoDup ps ∧
             (list_to_set conns.*1 : gset string) = list_to_set ps).
Proof.
  destruct (run_ops_inv ops manager_init registry_inv_init) as (m & Hrun & Hinv).
  exists m. split_and!; [done| |].
  - apply set_eq. intros r. rewrite !elem_of_dom. by apply inv_same_rooms.
  - intros r conns Hr.
    destruct (inv_members_exist m r _ Hinv Hr) as [ps Hp].
    exists ps. split_and!; [done|by eapply inv_members_nodup|].
    apply set_eq. intros u. rewrite !elem_of_list_to_set.
    by rewrite (inv_same_users m Hinv r conns ps).
Qed.

(** ** Registering and unregistering *)

Lemma filter_none {A} (P : A → Prop) `{∀ x, Decision (P x)} (l : list A) :
  (∀ x, x ∈ l → ¬ P x) → filter P l = [].
Proof.
  induction l as [|y l IH]; intros Hall; [done|].
  rewrite filter_cons_False; [apply Hall; left|].
  apply IH. intros x Hx. apply Hall. by right.
Qed.

Lemma filter_key_unique {V} (k : string) (v : V) (d : list (string * V)) :
  NoDup d.*1 → PyDict.get k d = Some v → filter (λ e, e.1 = k) d = [(k, v)].
Proof.
  induction d as [|[k0 v0] d IH]; simpl; intros Hnd Hget; [done|].
  apply NoDup_cons in Hnd as [Hk0 Hnd].
  destruct (decide (k0 = k)) as [->|Hne].
  - injection Hget as ->. rewrite filter_cons_True //. f_equal.
    apply filter_none. intros [k1 v1] Hin Heq. simpl in Heq. subst.
    apply Hk0. apply list_elem_of_fmap. by exists (k, v1).
  - rewrite filter_cons_False //. by apply IH.
Qed.

Lemma filter_eq_unique (x : string) (l : list string) :
  NoDup l → x ∈ l → filter (λ y, y = x) l = [x].
Proof.
  induction l as [|z l IH]; simpl; intros Hnd Hin.
  - by apply elem_of_nil in Hin.
  - apply NoDup_cons in Hnd as [Hz Hnd].
    destruct (decide (z = x)) as [->|Hne].
    + rewrite filter_cons_True //. f_equal.
      apply filter_none. by intros y Hy ->.
    + rewrite filter_cons_False //. apply IH; [done|].
      apply elem_of_cons in Hin as [?|?]; [congruence | done].
Qed.

Lemma keys_set_present {V} (k : string) (v : V) (d : list (string * V)) :
  k ∈ d.*1 → (PyDict.set k v d).*1 = d.*1.
Proof.
  induction d as [|[k0 v0] d IH]; simpl.
  - by intros ?%elem_of_nil.
  - intros Hin. destruct (decide (k0 = k)) as [->|Hne]; simpl; [done|].
    f_equal. apply IH. apply elem_of_cons in Hin as [?|?]; [congruence | done].
Qed.

(** The state [connect] builds from one that satisfies the invariant. *)
Lemma connect_effect ws u r m :
  registry_inv m →
  ∃ conns' ps',
    connect ws u r m =
      ({| active_connections := <[r := conns']> (active_connections m);
          room_participants := <[r := ps']> (room_participants m) |}, Return tt) ∧
    conns' = PyDict.set u ws (default [] (active_connections m !! r)) ∧
    ps' = (let ps := default [] (room_participants m !! r) in
           if decide (u ∈ ps) then ps else ps ++ [u]) ∧
    NoDup conns'.*1 ∧ NoDup ps' ∧ u ∈ ps'.
Proof.
  intros Hinv. destruct (active_connections m !! r) as [conns|] eqn:Hr.
  - destruct (inv_members_exist m r conns Hinv Hr) as [ps Hp].
    pose proof (inv_keys_nodup m Hinv r conns Hr) as Hk.
    pose proof (inv_members_nodup m Hinv r ps Hp) as Hnd.
    rewrite (connect_known_room ws u r m conns ps) // Hp /=.
    eexists _, _. split_and!; [|done|done|by apply NoDup_keys_set| |].
    + destruct (decide (u ∈ ps)); [|done].
      by rewrite (insert_id (room_participants m) r ps).
    + destruct (decide (u ∈ ps)); [done|].
      apply NoDup_app. split_and!; [done| |apply NoDup_singleton].
      by intros x Hx ->%list_elem_of_singleton.
    + destruct (decide (u ∈ ps)); [done|].
      apply elem_of_app. right. by apply list_elem_of_singleton.
  - rewrite connect_new_room // (inv_no_members m r Hinv Hr) /=.
    destruct (decide (u ∈ [])) as [?%elem_of_nil|_]; [done|].
    eexists _, _. split_and!; try done; simpl.
    + apply NoDup_singleton.
    + apply NoDup_singleton.
    + by apply list_elem_of_singleton.
Qed.

(** C5. In every reachable state, registering [(r, u)] with a handle returns
    normally, makes that handle the one registered for the pair and leaves
    every other pair as it was; a room that was absent gets a connection map
    and a participant list holding just this user. Registering the pair a
    second time with another handle again succeeds: the pair now resolves to
    the second handle, the room's connection map has one entry for the user
    and the same keys as before, and the participant list is unchanged, with
    the user in it once. *)
Theorem connect_registers_latest (m : ConnectionManager) (ws ws2 : WebSocket)
    (u r : string) :
  reachable m →
  ∃ m1 m2 conns1 conns2 ps,
    connect ws u r m = (m1, Return tt) ∧
    connect ws2 u r m1 = (m2, Return tt) ∧
    lookup_handle r u m1 = Some ws ∧
    (∀ r' u', (r', u') ≠ (r, u) →
       lookup_handle r' u' m1 = lookup_handle r' u' m) ∧
    (active_connections m !! r = None → conns1 = [(u, ws)] ∧ ps = [u]) ∧
    active_connections m1 !! r = Some conns1 ∧
    room_participants m1 !! r = Some ps ∧
    filter (λ e, e.1 = u) conns1 = [(u, ws)] ∧
    filter (λ x, x = u) ps = [u] ∧
    lookup_handle r u m2 = Some ws2 ∧
    active_connections m2 !! r = Some conns2 ∧
    room_participants m2 = room_participants m1 ∧
    filter (λ e, e.1 = u) conns2 = [(u, ws2)] ∧
    conns2.*1 = conns1.*1.
Proof.
  intros Hinv%reachable_inv.
  destruct (connect_effect ws u r m Hinv) as (conns1 & ps & Hc1 & Hconns1 & Hps & Hk1 & Hnd & Hin).
  destruct (connect_inv ws u r m Hinv) as (m1 & Hm1 & Hinv1).
  rewrite Hm1 in Hc1. injection Hc1 as Hc1.
  destruct (connect_effect ws2 u r m1 Hinv1) as (conns2 & ps2 & Hc2 & Hconns2 & Hps2 & Hk2 & _ & _).
  assert (active_connections m1 !! r = Some conns1) as Hr1
    by (rewrite Hc1 /=; apply lookup_insert_eq).
  assert (room_participants m1 !! r = Some ps) as Hp1
    by (rewrite Hc1 /=; apply lookup_insert_eq).
  rewrite Hr1 /= in Hconns2. rewrite Hp1 /= in Hps2.
  destruct (decide (u ∈ ps)); [|done]. subst ps2.
  assert (PyDict.get u conns1 = Some ws) as Hget1 by (rewrite Hconns1; apply get_set_eq).
  assert (PyDict.get u conns2 = Some ws2) as Hget2 by (rewrite Hconns2; apply get_set_eq).
  eexists m1, _, conns1, conns2, ps. split_and!; try done.
  - by rewrite /lookup_handle Hr1.
  - intros r' u' Hne. rewrite /lookup_handle Hc1 /=.
    destruct (decide (r = r')) as [<-|Hr'].
    + rewrite lookup_insert_eq Hconns1 get_set_ne; [congruence|].
      by destruct (active_connections m !! r).
    + by rewrite lookup_insert_ne.
  - intros Hnone. rewrite Hconns1 Hps Hnone (inv_no_members m r Hinv Hnone) /=.
    by destruct (decide (u ∈ [])) as [?%elem_of_nil|_].
  - by apply filter_key_unique.
  - by apply filter_eq_unique.
  - by rewrite /lookup_handle /= lookup_insert_eq.
  - by rewrite /= lookup_insert_eq.
  - rewrite /= insert_id //.
  - by apply filter_key_unique.
  - rewrite Hconns2. apply keys_set_present, get_is_Some. eauto.
Qed.

Lemma del_nil_iff {V} (k : string) (v : V) (d : list (string * V)) :
  PyDict.get k d = Some v → PyDict.del k d = [] ↔ d = [(k, v)].
Proof.
  destruct d as [|[k0 v0] d]; simpl; [done|].
  destruct (decide (k0 = k)) as [->|Hne].
  - intros [= ->]. split; [by intros -> | by intros [= ->]].
  - intros _. split; [done | by intros [= ? ? ?]].
Qed.

(** C6. In every reachable state [disconnect] returns normally. When the pair
    has no registered handle the registry is left as it is. Otherwise the
    pair's entry is gone afterwards and every other pair resolves as before;
    if the user was the only one connected to the room, the room is deleted
    from both maps, and if not, the room stays, with the remaining connections
    and with a participant list that holds exactly the other members. *)
Theorem disconnect_unregisters (m : ConnectionManager) (u r : string) :
  reachable m →
  ∃ m', disconnect u r m = (m', Return tt) ∧
    (lookup_handle r u m = None → m' = m) ∧
    lookup_handle r u m' = None ∧
    (∀ r' u', (r', u') ≠ (r, u) →
       lookup_handle r' u' m' = lookup_handle r' u' m) ∧
    (∀ conns ps ws,
       active_connections m !! r = Some conns →
       room_participants m !! r = Some ps →
       PyDict.get u conns = Some ws →
       if decide (conns = [(u, ws)]) then
         active_connections m' !! r = None ∧ room_participants m' !! r = None
       else
         active_connections m' !! r = Some (PyDict.del u conns) ∧
         PyDict.del u conns ≠ [] ∧
         room_participants m' !! r = Some (list_remove_first u ps) ∧
         (∀ u', u' ∈ list_remove_first u ps ↔ u' ∈ ps ∧ u' ≠ u)).
Proof.
  intros Hinv%reachable_inv.
  destruct (lookup_handle r u m) as [ws|] eqn:Hl; last first.
  { exists m. rewrite disconnect_not_registered //. split_and!; try done.
    intros conns ps ws Hr _ Hget. by rewrite /lookup_handle Hr Hget in Hl. }
  pose proof Hl as Hl'. rewrite /lookup_handle in Hl'.
  destruct (active_connections m !! r) as [conns|] eqn:Hr; [|done].
  destruct (inv_members_exist m r conns Hinv Hr) as [ps Hp].
  pose proof (inv_keys_nodup m Hinv r conns Hr) as Hk.
  pose proof (inv_members_nodup m Hinv r ps Hp) as Hnd.
  pose proof (inv_same_users m Hinv r conns ps Hr Hp) as Hsame.
  assert (u ∈ ps) as Hin by (apply Hsame, get_is_Some; eauto).
  rewrite (disconnect_registered u r m conns ps ws) //.
  eexists; split; [done|].
  destruct (decide (PyDict.del u conns = [])) as [Hdel|Hdel].
  - pose proof Hdel as ->%(del_nil_iff u ws conns Hl').
    split_and!; [done|by rewrite /lookup_handle /= lookup_delete_eq| |].
    + intros r' u' Hne. rewrite /lookup_handle /=.
      destruct (decide (r = r')) as [<-|Hr'].
      * rewrite lookup_delete_eq Hr /= decide_False; [congruence|done].
      * by rewrite lookup_delete_ne.
    + intros conns' ps' ws'. rewrite Hp. intros [= <-] [= <-] Hget.
      simpl in Hget. rewrite decide_True // in Hget. injection Hget as <-.
      rewrite decide_True //= !lookup_delete_eq //.
  - rewrite decide_True //.
    split_and!; [done|by rewrite /lookup_handle /= lookup_insert_eq get_del_eq| |].
    + intros r' u' Hne. rewrite /lookup_handle /=.
      destruct (decide (r = r')) as [<-|Hr'].
      * rewrite lookup_insert_eq Hr get_del_ne; [congruence|done].
      * by rewrite lookup_insert_ne.
    + intros conns' ps' ws'. rewrite Hp. intros [= <-] [= <-] Hget.
      assert (ws' = ws) as -> by congruence.
      rewrite decide_False.
      { by intros ?%(del_nil_iff u ws conns Hl'). }
      rewrite /= !lookup_insert_eq. split_and!; try done.
      intros u'. by apply elem_remove_first.
Qed.

(** ** Broadcast *)

(** The loop writes once to every entry whose key is not the excluded user,
    in the order of the dictionary, and ends normally whatever the transport
    does with each write. *)
Lemma broadcast_loop_eq msg ex items net :
  broadcast_loop msg ex items net =
    ((λ e, (e.2, msg)) <$> filter (λ e, Some e.1 ≠ ex) items, Return tt).
Proof.
  induction items as [|[u ws] items IH]; simpl; [done|].
  rewrite /mbind /io_bind. destruct (decide (Some u ≠ ex)) as [Hne|Heq].
  - rewrite filter_cons_True // /try_except_pass /send_text /= IH //.
  - rewrite filter_cons_False // /mret /io_ret /= IH //.
Qed.

Lemma broadcast_to_room_eq msg r ex m net :
  broadcast_to_room msg r ex m net =
    ((λ e, (e.2, msg)) <$>
       filter (λ e, Some e.1 ≠ ex) (default [] (active_connections m !! r)),
     Return tt).
Proof.
  rewrite /broadcast_to_room.
  destruct (active_connections m !! r); [apply broadcast_loop_eq | done].
Qed.

Lemma filter_all {A} (P : A → Prop) `{∀ x, Decision (P x)} (l : list A) :
  (∀ x, x ∈ l → P x) → filter P l = l.
Proof.
  induction l as [|y l IH]; intros Hall; [done|].
  rewrite filter_cons_True; [apply Hall; left|].
  f_equal. apply IH. intros x Hx. apply Hall. by right.
Qed.

Lemma length_filter_exclude {V} (U : string) (d : list (string * V)) :
  NoDup d.*1 →
  length (filter (λ e, Some e.1 ≠ Some U) d)
    + (if PyDict.contains U d then 1 else 0) = length d.
Proof.
  induction d as [|[k v] d IH]; simpl; intros Hnd; [done|].
  apply NoDup_cons in Hnd as [Hk Hnd].
  rewrite /PyDict.contains /=. destruct (decide (k = U)) as [->|Hne].
  - rewrite filter_cons_False; [naive_solver|].
    rewrite filter_all; [|lia].
    intros [k' v'] Hin [= ->]. apply Hk, list_elem_of_fmap. by exists (U, v').
  - rewrite filter_cons_True; [naive_solver|].
    rewrite /= -(IH Hnd) /PyDict.contains. lia.
Qed.

Lemma elem_get {V} (k : string) (v : V) (d : list (string * V)) :
  NoDup d.*1 → (k, v) ∈ d → PyDict.get k d = Some v.
Proof.
  induction d as [|[k0 v0] d IH]; simpl; intros Hnd Hin.
  - by apply elem_of_nil in Hin.
  - apply NoDup_cons in Hnd as [Hk Hnd].
    apply elem_of_cons in Hin as [[= -> ->]|Hin].
    + by rewrite decide_True.
    + rewrite decide_False; [|by apply IH].
      intros ->. apply Hk, list_elem_of_fmap. by exists (k, v).
Qed.

(** C3. In a reachable state, broadcasting to a room whose connection map is
    [conns] (one entry per member) returns normally after one [send_text] of
    the message for each member other than the excluded user, and no other
    write: as many writes as members when the excluded user is [None] or not
    a member, one fewer when it is a member; the handle of the excluded user,
    when no other member shares it, is not written to; and on a transport
    that loses no write every one of these writes is delivered. *)
Theorem broadcast_recipients (m : ConnectionManager) (msg : message)
    (r : string) (ex : option string) (net : transport)
    (conns : list (string * WebSocket)) :
  reachable m →
  active_connections m !! r = Some conns →
  ∃ tr, broadcast_to_room msg r ex m net = (tr, Return tt) ∧
    NoDup conns.*1 ∧
    tr = (λ e, (e.2, msg)) <$> filter (λ e, Some e.1 ≠ ex) conns ∧
    length tr = match ex with
                | Some U => if PyDict.contains U conns
                            then length conns - 1 else length conns
                | None => length conns
                end ∧
    (∀ U wsU, ex = Some U → PyDict.get U conns = Some wsU →
       (∀ u', PyDict.get u' conns = Some wsU → u' = U) →
       wsU ∉ tr.*1) ∧
    ((∀ ws, net ws = None) → delivered net tr = tr).
Proof.
  intros Hinv%reachable_inv Hr.
  pose proof (inv_keys_nodup m Hinv r conns Hr) as Hk.
  rewrite broadcast_to_room_eq Hr /=. eexists; split_and!; try done;
    last by (intros Hok; apply filter_all; intros s _; apply Hok).
  - rewrite length_fmap. destruct ex as [U|].
    + pose proof (length_filter_exclude U conns Hk) as Hlen.
      destruct (PyDict.contains U conns); lia.
    + by rewrite filter_all.
  - intros U wsU -> HU Hinj.
    rewrite -list_fmap_compose.
    intros ([u' ws'] & Heq & [Hne Hin]%list_elem_of_filter)%list_elem_of_fmap.
    simpl in *. subst ws'. apply Hne. f_equal. apply Hinj. by apply elem_get.
Qed.

(** C7. A broadcast to a room whose connection map is [conns], on a transport
    that may fail any write: the call returns normally and its writes are the
    message once to the handle of every entry other than the excluded user,
    in the order of the map. A write that raises is swallowed where it
    happens: when the entry of [u], between [pre] and [post], has a handle
    whose write raises, the writes are still those for [pre], the failed one,
    and those for all of [post]; every recipient whose own write succeeds
    gets the message. A broadcast-class frame therefore makes these writes
    and leaves the sending session active, whichever writes fail. *)
Theorem broadcast_swallows_send_failures (m : ConnectionManager)
    (msg : message) (r : string) (ex : option string) (net : transport)
    (conns : list (string * WebSocket)) :
  active_connections m !! r = Some conns →
  ∃ tr,
    broadcast_to_room msg r ex m net = (tr, Return tt) ∧
    tr = ((λ c, (c.2, msg)) <$> filter (λ c, Some c.1 ≠ ex) conns) ∧
    (∀ u ws, (u, ws) ∈ conns → Some u ≠ ex →
       (ws, msg) ∈ tr ∧ (net ws = None → (ws, msg) ∈ delivered net tr)) ∧
    (∀ pre u ws post e,
       conns = pre ++ (u, ws) :: post → Some u ≠ ex → net ws = Some e →
       tr = ((λ c, (c.2, msg)) <$> filter (λ c, Some c.1 ≠ ex) pre)
            ++ (ws, msg)
            :: ((λ c, (c.2, msg)) <$> filter (λ c, Some c.1 ≠ ex) post)) ∧
    (∀ data v ty user,
       subscript v "type" = Return ty → targeted ty = false →
       websocket_step (Text data (Some v)) r user m net =
         (m,
          (λ c, (c.2, Raw data)) <$> filter (λ c, Some c.1 ≠ Some user) conns,
          Active)).
Proof.
  intros Hr. rewrite broadcast_to_room_eq Hr /=.
  eexists; split_and!; [done|done| | |].
  - intros u ws Hin Hne.
    assert ((ws, msg) ∈ (λ c, (c.2, msg)) <$> filter (λ c, Some c.1 ≠ ex) conns)
      as Hw.
    { apply list_elem_of_fmap. exists (u, ws). split; [done|].
      by apply list_elem_of_filter. }
    split; [done|]. intros Hok. by apply list_elem_of_filter.
  - intros pre u ws post e -> Hne _.
    by rewrite filter_app filter_cons_True // fmap_app.
  - intros data v ty user Hty Htarg.
    rewrite /websocket_step /loop_body /mbind /io_bind /lift /= Hty.
    rewrite /targeted in Htarg.
    apply orb_false_iff in Htarg as [[H1 H2]%orb_false_iff H3].
    by rewrite H1 H2 H3 !broadcast_to_room_eq Hr.
Qed.

(** ** Targeted relay *)

Lemma send_personal_message_eq msg to room m net :
  send_personal_message msg (JStr to) room m net =
    match lookup_handle room to m with
    | Some ws =>
        ([(ws, msg)], match net ws with None => Return tt | Some e => Raise e end)
    | None => ([], Return tt)
    end.
Proof.
  rewrite /send_personal_message /lookup_handle.
  destruct (active_connections m !! room) as [conns|]; [|done].
  simpl. by destruct (PyDict.get to conns).
Qed.

(** The three targeted branches of the loop do the same thing. *)
Lemma loop_body_targeted data v ty to_user room user m net :
  subscript v "type" = Return ty → targeted ty = true →
  subscript v "to_user" = Return to_user →
  loop_body (Text data (Some v)) room user m net =
    send_personal_message (Raw data) to_user room m net.
Proof.
  intros Hty Htarg Hto.
  rewrite /loop_body /mbind /io_bind /lift /= Hty /=.
  rewrite /targeted in Htarg.
  destruct (eq_str ty "webrtc_offer"), (eq_str ty "webrtc_answer"),
    (eq_str ty "ice_candidate"); try done;
    rewrite Hto; by destruct (send_personal_message _ _ _ _ _) as [? ?].
Qed.

(** C4. For an offer, answer or ICE-candidate frame whose [to_user] is a user
    id: when that user has a handle registered in the sender's room, the
    routing makes one write, to that handle, of the frame as received, and
    when the write succeeds the session stays active with the registry as it
    was; when the user has no handle in the room nothing is written, the
    registry is as it was and the session stays active, and each of the three
    relay endpoints answers a request for that target with its usual
    acknowledgment. *)
Theorem targeted_relay (m : ConnectionManager) (net : transport)
    (room user data to : string) (v ty : json) :
  subscript v "type" = Return ty →
  targeted ty = true →
  subscript v "to_user" = Return (JStr to) →
  match lookup_handle room to m with
  | Some ws =>
      (loop_body (Text data (Some v)) room user m net).1 = [(ws, Raw data)] ∧
      (net ws = None →
       websocket_step (Text data (Some v)) room user m net =
         (m, [(ws, Raw data)], Active))
  | None =>
      websocket_step (Text data (Some v)) room user m net = (m, [], Active) ∧
      (∀ from payload,
         send_offer
           {| offer_room_id := room; offer_from_user := from;
              offer_to_user := to; offer := payload |} m net =
           ([], Return (JObj [("message", JStr "Offer sent")])) ∧
         send_answer
           {| answer_room_id := room; answer_from_user := from;
              answer_to_user := to; answer := payload |} m net =
           ([], Return (JObj [("message", JStr "Answer sent")])) ∧
         send_ice_candidate
           {| candidate_room_id := room; candidate_from_user := from;
              candidate_to_user := to; candidate := payload |} m net =
           ([], Return (JObj [("message", JStr "ICE candidate sent")])))
  end.
Proof.
  intros Hty Htarg Hto.
  pose proof (loop_body_targeted data v ty _ room user m net Hty Htarg Hto) as Hbody.
  rewrite send_personal_message_eq in Hbody.
  rewrite /websocket_step Hbody.
  pose proof (send_personal_message_eq) as Hsend.
  rewrite /send_offer /send_answer /send_ice_candidate /mbind /io_bind /=.
  destruct (lookup_handle room to m) as [ws|] eqn:Hl; simpl.
  - split; [done|]. by intros ->.
  - split; [done|]. intros from payload.
    by rewrite !Hsend Hl.
Qed.

(** ** Ungraceful disconnect *)

(** What a disconnect leaves behind, for the proofs about its callers. *)
Lemma disconnect_lookup u r m :
  registry_inv m →
  ∃ m', disconnect u r m = (m', Return tt) ∧ registry_inv m' ∧
    lookup_handle r u m' = None ∧
    (∀ u', u' ≠ u → lookup_handle r u' m' = lookup_handle r u' m).
Proof.
  intros Hinv.
  destruct (disconnect_inv u r m Hinv) as (m' & Hd & Hinv').
  exists m'. split_and!; [done|done| |].
  - destruct (lookup_handle r u m) as [ws|] eqn:Hl.
    + rewrite /lookup_handle in Hl.
      destruct (active_connections m !! r) as [conns|] eqn:Hr; [|done].
      destruct (inv_members_exist m r conns Hinv Hr) as [ps Hp].
      rewrite (disconnect_registered u r m conns ps ws) // in Hd.
      injection Hd as <-. rewrite /lookup_handle.
      case_decide; simpl; [by rewrite lookup_delete_eq|].
      rewrite lookup_insert_eq. apply get_del_eq.
      exact (inv_keys_nodup m Hinv r conns Hr).
    + rewrite disconnect_not_registered // in Hd. by injection Hd as <-.
  - intros u' Hne.
    destruct (lookup_handle r u m) as [ws|] eqn:Hl.
    + rewrite /lookup_handle in Hl |- *.
      destruct (active_connections m !! r) as [conns|] eqn:Hr; [|done].
      destruct (inv_members_exist m r conns Hinv Hr) as [ps Hp].
      rewrite (disconnect_registered u r m conns ps ws) // in Hd.
      injection Hd as <-.
      case_decide as Hdel; simpl.
      * apply (del_nil_iff u ws conns Hl) in Hdel as ->.
        rewrite lookup_delete_eq /= decide_False //.
      * rewrite lookup_insert_eq get_del_ne //.
    + rewrite disconnect_not_registered // in Hd. by injection Hd as <-.
Qed.

Lemma broadcast_to_all msg r m net :
  broadcast_to_room msg r None m net =
    ((λ e, (e.2, msg)) <$> default [] (active_connections m !! r), Return tt).
Proof. rewrite broadcast_to_room_eq. by rewrite filter_all. Qed.

(** C8. In a reachable state, when the receive of a session for [(r, u)]
    raises [WebSocketDisconnect], the endpoint unregisters the pair and then
    writes the notification, the JSON object whose [type] is
    [user_disconnected] and whose [user_id] is [u], once to every handle
    still registered in the room, closing the session; afterwards [u] has no
    handle in the room and is not in its participant list, and every other
    user of the room resolves as before. *)
Theorem ungraceful_disconnect_notifies (m : ConnectionManager) (r u : string)
    (net : transport) :
  reachable m →
  ∃ m', disconnect u r m = (m', Return tt) ∧
    websocket_step Disconnected r u m net =
      (m',
       (λ e, (e.2,
              Dumps (JObj [("type", JStr "user_disconnected");
                           ("user_id", JStr u)])))
         <$> default [] (active_connections m' !! r),
       Closed) ∧
    lookup_handle r u m' = None ∧
    (u ∉ default [] (room_participants m' !! r)) ∧
    (∀ u', u' ≠ u → lookup_handle r u' m' = lookup_handle r u' m).
Proof.
  intros Hinv%reachable_inv.
  destruct (disconnect_lookup u r m Hinv) as (m' & Hd & Hinv' & Hnone & Hframe).
  exists m'. split_and!; try done.
  - by rewrite /websocket_step /= Hd broadcast_to_all.
  - destruct (room_participants m' !! r) as [ps|] eqn:Hp; simpl;
      [|apply not_elem_of_nil].
    assert (is_Some (active_connections m' !! r)) as [conns Hr]
      by (apply (inv_same_rooms m' Hinv'); eauto).
    rewrite (inv_same_users m' Hinv' r conns ps Hr Hp).
    apply get_None. by rewrite /lookup_handle Hr in Hnone.
Qed.

(** The scenario of the specification: A and B connect to room r1; A's offer
    for B reaches B's handle only, as sent; A's chat frame reaches B and not
    A; B's abrupt disconnect sends A one [user_disconnected] for B and leaves
    [A] as the only participant. *)
Example scenario_r1 :
  let net : transport := λ _, None in
  let offer_frame :=
    JObj [("type", JStr "webrtc_offer"); ("to_user", JStr "B")] in
  let chat_frame := JObj [("type", JStr "chat"); ("text", JStr "hi")] in
  let m := (run_ops [Connect 1 "A" "r1"; Connect 2 "B" "r1"] manager_init).1 in
  websocket_step (Text "offer-text" (Some offer_frame)) "r1" "A" m net =
    (m, [(2, Raw "offer-text")], Active) ∧
  websocket_step (Text "chat-text" (Some chat_frame)) "r1" "A" m net =
    (m, [(2, Raw "chat-text")], Active) ∧
  ∃ m', websocket_step Disconnected "r1" "B" m net =
          (m',
           [(1, Dumps (JObj [("type", JStr "user_disconnected");
                             ("user_id", JStr "B")]))],
           Closed) ∧
        room_participants m' !! "r1" = Some ["A"] ∧
        active_connections m' !! "r1" = Some [("A", 1)].
Proof.
  simpl. split_and!; [by vm_compute|by vm_compute|].
  eexists. split_and!; [by vm_compute|by vm_compute|by vm_compute].
Qed.

(** ** Frames that cannot be read *)

(** C1, as the code has it. A frame that cannot be read as a signaling
    message makes the loop body raise [JSONDecodeError], [KeyError] or
    [TypeError]; the endpoint handles none of them, so the exception leaves
    it and the session ends there. Nothing is written and the registry is not
    touched: the session's entry stays registered. *)
Theorem unreadable_frame_aborts (m : ConnectionManager) (net : transport)
    (room user data : string) (loaded : option json) :
  parse_fails loaded = true →
  ∃ e, websocket_step (Text data loaded) room user m net = (m, [], Aborted e) ∧
       e ∈ [JSONDecodeError; KeyError; TypeError].
Proof.
  rewrite /parse_fails /websocket_step /loop_body /mbind /io_bind /lift /targeted.
  destruct loaded as [v|]; simpl; last first.
  { intros _. exists JSONDecodeError. split; [done | by left]. }
  assert (∀ k e, subscript v k = Raise e → e = KeyError ∨ e = TypeError) as Hsub.
  { intros k e. rewrite /subscript. destruct v; try (intros [= <-]; by right).
    destruct (PyDict.get k fields); [done | intros [= <-]; by left]. }
  destruct (subscript v "type") as [ty|e] eqn:Hty; simpl.
  - destruct (eq_str ty "webrtc_offer"), (eq_str ty "webrtc_answer"),
      (eq_str ty "ice_candidate"); simpl; try done;
      (destruct (subscript v "to_user") as [to|e] eqn:Hto; simpl; [done|]);
      intros _; destruct (Hsub _ _ Hto) as [-> | ->]; eexists;
      (split; [done|]); first [by right; left | by right; right; left].
  - intros _. destruct (Hsub _ _ Hty) as [-> | ->]; eexists;
      (split; [done|]); first [by right; left | by right; right; left].
Qed.

(** C1, as the specification words it, fails: on the text frame [{] of a
    session registered as [("r1", "A")], [json.loads] raises and the endpoint
    ends with [JSONDecodeError]. *)
Lemma malformed_frames_not_ignored : ¬ malformed_frames_ignored.
Proof.
  intros Hclaim.
  pose (m := (run_ops [Connect 1 "A" "r1"] manager_init).1).
  assert ((websocket_step (Text "{" None) "r1" "A" m (λ _, None)).2 = Active)
    as Hrun.
  { apply Hclaim.
    - by exists [Connect 1 "A" "r1"].
    - by exists 1.
    - reflexivity. }
  discriminate Hrun.
Qed.

(** ** Leaving a room *)

Lemma find_one_id rid rooms room :
  find_one rid rooms = Some room → ChatRoom.id room = rid.
Proof.
  induction rooms as [|x rooms IH]; simpl; [done|].
  case_decide; [by intros [= <-] | done].
Qed.

Lemma find_one_update_one rid f rooms room :
  (∀ x, ChatRoom.id (f x) = ChatRoom.id x) →
  find_one rid rooms = Some room →
  find_one rid (update_one rid f rooms) = Some (f room).
Proof.
  intros Hid. induction rooms as [|x rooms IH]; simpl; [done|].
  destruct (decide (ChatRoom.id x = rid)) as [Hx|Hx]; simpl.
  - intros [= <-]. by rewrite Hid decide_True.
  - intros Hfind. rewrite decide_False //. by apply IH.
Qed.






Lemma not_elem_of_pull x l : x ∉ pull x l.
Proof. rewrite /pull list_elem_of_filter. naive_solver. Qed.



(** ** The theorems at concrete inputs *)

Lemma registry_r1_reachable : reachable registry_r1.
Proof. by exists [Connect 1 "A" "r1"; Connect 2 "B" "r1"]. Defined.

Lemma connect_registers_latest_witness :
  reachable registry_r1 ∧
  ∃ m1 m2, connect 3 "A" "r1" registry_r1 = (m1, Return tt) ∧
           connect 4 "A" "r1" m1 = (m2, Return tt) ∧
           lookup_handle "r1" "A" m1 = Some 3 ∧
           lookup_handle "r1" "A" m2 = Some 4 ∧
           room_participants m2 = room_participants m1.
Proof.
  split; [exact registry_r1_reachable|].
  destruct (connect_registers_latest registry_r1 3 4 "A" "r1" registry_r1_reachable)
    as (m1 & m2 & conns1 & conns2 & ps & H1 & H2 & H3 & _ & _ & _ & _ & _ & _ & H4 & _ & H5 & _).
  exists m1, m2. repeat split; assumption.
Defined.

Lemma disconnect_unregisters_witness :
  reachable registry_r1 ∧
  ∃ m', disconnect "B" "r1" registry_r1 = (m', Return tt) ∧
        lookup_handle "r1" "B" m' = None ∧
        lookup_handle "r1" "A" m' = lookup_handle "r1" "A" registry_r1.
Proof.
  split; [exact registry_r1_reachable|].
  destruct (disconnect_unregisters registry_r1 "B" "r1" registry_r1_reachable)
    as (m' & H1 & _ & H2 & H3 & _).
  exists m'. repeat split; [assumption|assumption|].
  apply H3. discriminate.
Defined.

Lemma broadcast_recipients_witness :
  reachable registry_r1 ∧
  active_connections registry_r1 !! "r1" = Some [("A", 1); ("B", 2)] ∧
  ∃ tr, broadcast_to_room (Raw "hi") "r1" (Some "A") registry_r1 reliable =
          (tr, Return tt) ∧
        tr = [(2, Raw "hi")].
Proof.
  split; [exact registry_r1_reachable|]. split; [reflexivity|].
  destruct (broadcast_recipients registry_r1 (Raw "hi") "r1" (Some "A") reliable
              [("A", 1); ("B", 2)] registry_r1_reachable eq_refl)
    as (tr & H1 & _ & H2 & _).
  exists tr. split; assumption.
Defined.

Lemma targeted_relay_witness :
  let v := JObj [("type", JStr "webrtc_offer"); ("to_user", JStr "B")] in
  subscript v "type" = Return (JStr "webrtc_offer") ∧
  targeted (JStr "webrtc_offer") = true ∧
  subscript v "to_user" = Return (JStr "B") ∧
  (loop_body (Text "offer-text" (Some v)) "r1" "A" registry_r1 reliable).1 =
    [(2, Raw "offer-text")].
Proof.
  intros v. split; [reflexivity|]. split; [reflexivity|]. split; [reflexivity|].
  exact (proj1 (targeted_relay registry_r1 reliable "r1" "A" "offer-text" "B" v
                  (JStr "webrtc_offer") eq_refl eq_refl eq_refl)).
Defined.

Lemma ungraceful_disconnect_notifies_witness :
  reachable registry_r1 ∧
  ∃ m', websocket_step Disconnected "r1" "B" registry_r1 reliable =
          (m',
           (λ e, (e.2,
                  Dumps (JObj [("type", JStr "user_disconnected");
                               ("user_id", JStr "B")])))
             <$> default [] (active_connections m' !! "r1"),
           Closed) ∧
        lookup_handle "r1" "B" m' = None.
Proof.
  split; [exact registry_r1_reachable|].
  destruct (ungraceful_disconnect_notifies registry_r1 "r1" "B" reliable
              registry_r1_reachable) as (m' & _ & H1 & H2 & _).
  exists m'. split; assumption.
Defined.

Lemma broadcast_swallows_send_failures_witness :
  active_connections registry_r1 !! "r1" = Some [("A", 1); ("B", 2)] ∧
  without_1 1 = Some RuntimeError ∧
  ∃ tr, broadcast_to_room (Raw "hi") "r1" None registry_r1 without_1 =
          (tr, Return tt) ∧
        tr = [(1, Raw "hi"); (2, Raw "hi")] ∧
        (2, Raw "hi") ∈ delivered without_1 tr.
Proof.
  split; [reflexivity|]. split; [reflexivity|].
  destruct (broadcast_swallows_send_failures registry_r1 (Raw "hi") "r1" None
              without_1 [("A", 1); ("B", 2)] eq_refl)
    as (tr & H1 & H2 & H3 & _).
  exists tr. split; [exact H1|]. split; [exact H2|].
  apply (H3 "B" 2); [right; left | discriminate | reflexivity].
Defined.

Lemma unreadable_frame_aborts_witness :
  parse_fails None = true ∧
  ∃ e, websocket_step (Text "{" None) "r1" "A" registry_r1 reliable =
         (registry_r1, [], Aborted e) ∧
       e ∈ [JSONDecodeError; KeyError; TypeError].
Proof.
  split; [reflexivity|].
  exact (unreadable_frame_aborts registry_r1 reliable "r1" "A" "{" None eq_refl).
Defined.


(** * Further properties of the registry and the endpoint *)

(** ** Order of the participant list *)

Lemma keys_set_absent {V} (k : string) (v : V) (d : list (string * V)) :
  k ∉ d.*1 → (PyDict.set k v d).*1 = d.*1 ++ [k].
Proof.
  induction d as [|[k0 v0] d IH]; simpl; [done|].
  rewrite not_elem_of_cons. intros [Hne Hnin].
  destruct (decide (k0 = k)); [congruence|]. simpl. f_equal. by apply IH.
Qed.

Lemma del_set_absent {V} (k : string) (v : V) (d : list (string * V)) :
  k ∉ d.*1 → PyDict.del k (PyDict.set k v d) = d.
Proof.
  induction d as [|[k0 v0] d IH]; simpl.
  - intros _. by destruct (decide (k = k)).
  - rewrite not_elem_of_cons. intros [Hne Hnin].
    destruct (decide (k0 = k)) as [|Hk]; [congruence|]. simpl.
    destruct (decide (k0 = k)); [congruence|]. f_equal. by apply IH.
Qed.

Lemma set_set {V} (k : string) (v v' : V) (d : list (string * V)) :
  PyDict.set k v' (PyDict.set k v d) = PyDict.set k v' d.
Proof.
  induction d as [|[k0 v0] d IH]; simpl.
  - by destruct (decide (k = k)).
  - destruct (decide (k0 = k)) as [->|Hk]; simpl.
    + by destruct (decide (k = k)).
    + destruct (decide (k0 = k)); [congruence|]. by rewrite IH.
Qed.

Lemma remove_first_app_last (x : string) (l : list string) :
  x ∉ l → list_remove_first x (l ++ [x]) = l.
Proof.
  induction l as [|y l IH]; simpl.
  - intros _. by destruct (decide (x = x)).
  - rewrite not_elem_of_cons. intros [Hne Hnin].
    destruct (decide (y = x)); [congruence|]. f_equal. by apply IH.
Qed.

(** The participant list of a room is the key sequence of its connection
    map: an invariant of [connect] and [disconnect] on top of
    [registry_inv]. *)
Lemma connect_keeps_order ws u r m m' :
  registry_inv m →
  (∀ r0 conns, active_connections m !! r0 = Some conns →
               room_participants m !! r0 = Some conns.*1) →
  connect ws u r m = (m', Return tt) →
  ∀ r0 conns, active_connections m' !! r0 = Some conns →
              room_participants m' !! r0 = Some conns.*1.
Proof.
  intros Hinv Hord Hc r0 conns0.
  destruct (connect_effect ws u r m Hinv) as (conns' & ps' & Hc' & Hconns & Hps & _).
  rewrite Hc' in Hc. injection Hc as <-. simpl.
  destruct (decide (r = r0)) as [<-|Hr]; last first.
  { rewrite !lookup_insert_ne //. apply Hord. }
  rewrite !lookup_insert_eq. intros [= <-]. f_equal.
  rewrite Hps Hconns. destruct (active_connections m !! r) as [conns|] eqn:Hl.
  - rewrite (Hord r conns Hl) /=.
    destruct (decide (u ∈ conns.*1)) as [Hin|Hnin].
    + by rewrite keys_set_present.
    + by rewrite keys_set_absent.
  - rewrite (inv_no_members m r Hinv Hl) /=.
    by destruct (decide (u ∈ [])) as [?%elem_of_nil|_].
Qed.

Lemma disconnect_keeps_order u r m m' :
  registry_inv m →
  (∀ r0 conns, active_connections m !! r0 = Some conns →
               room_participants m !! r0 = Some conns.*1) →
  disconnect u r m = (m', Return tt) →
  ∀ r0 conns, active_connections m' !! r0 = Some conns →
              room_participants m' !! r0 = Some conns.*1.
Proof.
  intros Hinv Hord Hd r0 conns0.
  destruct (lookup_handle r u m) as [ws|] eqn:Hl; last first.
  { rewrite disconnect_not_registered // in Hd. injection Hd as <-. apply Hord. }
  rewrite /lookup_handle in Hl.
  destruct (active_connections m !! r) as [conns|] eqn:Hr; [|done].
  pose proof (Hord r conns Hr) as Hp.
  rewrite (disconnect_registered u r m conns conns.*1 ws) // in Hd.
  injection Hd as <-.
  destruct (decide (PyDict.del u conns = [])) as [Hdel|Hdel]; simpl.
  - intros [Hne Hl0]%lookup_delete_Some. rewrite lookup_delete_ne //. by apply Hord.
  - rewrite decide_True; [apply get_is_Some; eauto|].
    destruct (decide (r = r0)) as [<-|Hne].
    + rewrite !lookup_insert_eq. intros [= <-]. by rewrite keys_del.
    + rewrite !lookup_insert_ne //. apply Hord.
Qed.

Lemma run_ops_keeps_order ops m :
  registry_inv m →
  (∀ r0 conns, active_connections m !! r0 = Some conns →
               room_participants m !! r0 = Some conns.*1) →
  ∃ m', run_ops ops m = (m', Return tt) ∧ registry_inv m' ∧
    ∀ r0 conns, active_connections m' !! r0 = Some conns →
                room_participants m' !! r0 = Some conns.*1.
Proof.
  revert m. induction ops as [|o ops IH]; intros m Hinv Hord; simpl; [eauto|].
  assert (∃ m1, apply_op o m = (m1, Return tt) ∧ registry_inv m1)
    as (m1 & Hstep & Hinv1).
  { destruct o; simpl; [apply connect_inv | apply disconnect_inv]; done. }
  rewrite Hstep. apply IH; [done|].
  destruct o; simpl in Hstep.
  - exact (connect_keeps_order _ _ _ m m1 Hinv Hord Hstep).
  - exact (disconnect_keeps_order _ _ m m1 Hinv Hord Hstep).
Qed.

(** X1. After every sequence of connect and disconnect operations, the
    participant list of each room is exactly the sequence of user ids keyed
    in its connection map, in the same order: the order in which the users
    now connected first registered. *)
Theorem participants_are_connection_keys (ops : list registry_op) :
  ∃ m, run_ops ops manager_init = (m, Return tt) ∧
    ∀ r conns, active_connections m !! r = Some conns →
               room_participants m !! r = Some conns.*1.
Proof.
  destruct (run_ops_keeps_order ops manager_init registry_inv_init)
    as (m & Hrun & _ & Hord); [|by eauto].
  intros r0 conns. by rewrite lookup_empty.
Qed.

(** ** Round trips and repeated operations *)

(** X2. In a reachable state where the pair has no handle, registering it and
    then unregistering it gives back the very same registry: a room created
    for the connection is deleted again, and the other members and their
    order are as before. *)
Theorem connect_disconnect_roundtrip (m : ConnectionManager) (ws : WebSocket)
    (u r : string) :
  reachable m →
  lookup_handle r u m = None →
  ∃ m1, connect ws u r m = (m1, Return tt) ∧
        lookup_handle r u m1 = Some ws ∧
        disconnect u r m1 = (m, Return tt).
Proof.
  intros Hinv%reachable_inv Hl. destruct m as [ac rp]. simpl in *.
  rewrite /lookup_handle /= in Hl.
  destruct (ac !! r) as [conns|] eqn:Hr.
  - destruct (inv_members_exist _ r conns Hinv Hr) as [ps Hp]. simpl in Hp.
    pose proof (inv_same_users _ Hinv r conns ps Hr Hp) as Hsame.
    assert (u ∉ conns.*1) as Hnin by by apply get_None.
    assert (u ∉ ps) as Hnps by by rewrite Hsame.
    rewrite (connect_known_room ws u r _ conns ps) //=.
    destruct (decide (u ∈ ps)); [done|].
    eexists; split_and!; [done|by rewrite /lookup_handle /= lookup_insert_eq get_set_eq|].
    rewrite (disconnect_registered u r _ (PyDict.set u ws conns) (ps ++ [u]) ws) /=;
      [by rewrite lookup_insert_eq|by rewrite get_set_eq|by rewrite lookup_insert_eq|].
    rewrite del_set_absent //.
    destruct (decide (conns = [])) as [->|_];
      [exfalso; exact (inv_not_empty _ Hinv r [] Hr eq_refl)|].
    rewrite decide_True; [apply elem_of_app; right; by apply list_elem_of_singleton|].
    rewrite remove_first_app_last // !insert_insert_eq !insert_id //.
  - pose proof (inv_no_members _ r Hinv Hr) as Hp. simpl in Hp.
    rewrite connect_new_room //=.
    eexists; split_and!; [done| |].
    { rewrite /lookup_handle /= lookup_insert_eq /=. by destruct (decide (u = u)). }
    rewrite (disconnect_registered u r _ [(u, ws)] [u] ws) /=;
      [by rewrite lookup_insert_eq|by destruct (decide (u = u))
      |by rewrite lookup_insert_eq|].
    destruct (decide (u = u)); [|done]. simpl.
    by rewrite !delete_insert_id.
Qed.

(** X3. In a reachable state, unregistering a pair twice is the same as
    unregistering it once, and registering a pair twice with the same handle
    is the same as registering it once. *)
Theorem register_unregister_idempotent (m : ConnectionManager) (ws : WebSocket)
    (u r : string) :
  reachable m →
  (∃ m1, disconnect u r m = (m1, Return tt) ∧
         disconnect u r m1 = (m1, Return tt)) ∧
  (∃ m2, connect ws u r m = (m2, Return tt) ∧
         connect ws u r m2 = (m2, Return tt)).
Proof.
  intros Hinv%reachable_inv. split.
  - destruct (disconnect_lookup u r m Hinv) as (m1 & Hd & _ & Hnone & _).
    exists m1. split; [done|]. by apply disconnect_not_registered.
  - destruct (connect_effect ws u r m Hinv)
      as (conns1 & ps1 & Hc1 & Hconns1 & Hps1 & _ & _ & Hin).
    destruct (connect_inv ws u r m Hinv) as (m2 & Hm2 & Hinv2).
    exists m2. split; [done|].
    rewrite Hm2 in Hc1. injection Hc1 as Hm2eq.
    destruct (connect_effect ws u r m2 Hinv2) as (conns2 & ps2 & Hc2 & Hconns2 & Hps2 & _).
    rewrite Hc2. f_equal. rewrite Hconns2 Hps2 Hm2eq /= !lookup_insert_eq /=.
    destruct (decide (u ∈ ps1)); [|done].
    by rewrite Hconns1 set_set !insert_insert_eq.
Qed.

(** ** A whole session *)

(** One turn of the loop in a state that satisfies the invariant: the
    registry is untouched unless the turn closes the session, and then it is
    what [disconnect] leaves. *)
Lemma websocket_step_cases ev r u m net :
  registry_inv m →
  ∃ tr, (websocket_step ev r u m net = (m, tr, Active)) ∨
        (∃ e, websocket_step ev r u m net = (m, tr, Aborted e)) ∨
        (∃ m', disconnect u r m = (m', Return tt) ∧
               websocket_step ev r u m net = (m', tr, Closed)).
Proof.
  intros Hinv. rewrite /websocket_step.
  destruct (loop_body ev r u m net) as [tr [[]|e]]; [eauto|].
  destruct (disconnect_inv u r m Hinv) as (m' & Hd & _).
  destruct e; eauto. rewrite Hd broadcast_to_all. eauto 10.
Qed.

Lemma websocket_loop_cases evs r u m net :
  registry_inv m →
  ∃ tr, (websocket_loop evs r u m net = (m, tr, Active)) ∨
        (∃ e, websocket_loop evs r u m net = (m, tr, Aborted e)) ∨
        (∃ m', disconnect u r m = (m', Return tt) ∧
               websocket_loop evs r u m net = (m', tr, Closed)).
Proof.
  intros Hinv. induction evs as [|ev evs IH]; simpl; [eauto|].
  destruct (websocket_step_cases ev r u m net Hinv)
    as (tr & [-> | [[e ->] | (m' & Hd & ->)]]); [|eauto|eauto 10].
  destruct IH as (tr' & [-> | [[e ->] | (m' & Hd & ->)]]); eauto 10.
Qed.

(** X4. A session run from a reachable state, whatever frames it receives and
    whatever the transport does, ends in a reachable state, so every
    invariant of the registry still holds after it. *)
Theorem websocket_endpoint_reachable (websocket : WebSocket) (r u : string)
    (evs : list received) (m : ConnectionManager) (net : transport) :
  reachable m →
  reachable (websocket_endpoint websocket r u evs m net).1.1.
Proof.
  intros Hreach. pose proof (reachable_inv m Hreach) as Hinv.
  destruct (connect_inv websocket u r m Hinv) as (m1 & Hc & Hinv1).
  assert (reachable m1) as Hreach1
    by exact (reachable_step (Connect websocket u r) m m1 Hreach Hc).
  rewrite /websocket_endpoint Hc.
  destruct (websocket_loop_cases evs r u m1 net Hinv1)
    as (tr & [-> | [[e ->] | (m' & Hd & ->)]]); simpl; try done.
  exact (reachable_step (Disconnect u r) m1 m' Hreach1 Hd).
Qed.

(** X5. How a session run from a reachable state leaves the registry. If it
    ends closed, the pair is unregistered. If it ends with an exception that
    left the endpoint, or is still active after the frames given, the
    registry is what [connect] made it: in particular the handle of a session
    that ended with an exception stays registered for the pair. *)
Theorem websocket_endpoint_registry (websocket : WebSocket) (r u : string)
    (evs : list received) (m : ConnectionManager) (net : transport) :
  reachable m →
  ∃ m1 m' tr st,
    connect websocket u r m = (m1, Return tt) ∧
    websocket_endpoint websocket r u evs m net = (m', tr, st) ∧
    match st with
    | Closed => disconnect u r m1 = (m', Return tt) ∧ lookup_handle r u m' = None
    | _ => m' = m1 ∧ lookup_handle r u m' = Some websocket
    end.
Proof.
  intros Hinv%reachable_inv.
  destruct (connect_effect websocket u r m Hinv) as (conns1 & ps1 & Hc1 & Hconns1 & _).
  destruct (connect_inv websocket u r m Hinv) as (m1 & Hc & Hinv1).
  assert (lookup_handle r u m1 = Some websocket) as Hl.
  { rewrite Hc in Hc1. injection Hc1 as ->.
    by rewrite /lookup_handle /= lookup_insert_eq Hconns1 get_set_eq. }
  exists m1. rewrite /websocket_endpoint Hc.
  destruct (websocket_loop_cases evs r u m1 net Hinv1)
    as (tr & [-> | [[e ->] | (m' & Hd & ->)]]);
    [by eexists _, _, _|by eexists _, _, _|].
  eexists _, _, _. split_and!; try done.
  destruct (disconnect_lookup u r m1 Hinv1) as (m'' & Hd' & _ & Hnone & _).
  rewrite Hd in Hd'. by injection Hd' as ->.
Qed.

(** ** Targeted relay: the cases beside the plain ones *)

(** X6. A targeted frame whose target has a handle, when the write to that
    handle raises. Any exception other than [WebSocketDisconnect] leaves the
    endpoint with the registry as it was. [WebSocketDisconnect], although it
    concerns the target's websocket, is handled as the sender's own
    disconnect: in a reachable state the sender is unregistered, the
    remaining handles of the room are sent [user_disconnected] for the
    sender, and the sender's session is closed. *)
Theorem targeted_relay_send_failure (m : ConnectionManager) (net : transport)
    (room user data to : string) (v ty : json) (ws : WebSocket) (e : exn) :
  subscript v "type" = Return ty →
  targeted ty = true →
  subscript v "to_user" = Return (JStr to) →
  lookup_handle room to m = Some ws →
  net ws = Some e →
  (e ≠ WebSocketDisconnect →
   websocket_step (Text data (Some v)) room user m net =
     (m, [(ws, Raw data)], Aborted e)) ∧
  (e = WebSocketDisconnect → reachable m →
   ∃ m', disconnect user room m = (m', Return tt) ∧
         websocket_step (Text data (Some v)) room user m net =
           (m',
            (ws, Raw data) ::
              ((λ c, (c.2, user_disconnected user)) <$>
                 default [] (active_connections m' !! room)),
            Closed) ∧
         lookup_handle room user m' = None).
Proof.
  intros Hty Htarg Hto Hl Hnet.
  pose proof (loop_body_targeted data v ty _ room user m net Hty Htarg Hto) as Hbody.
  rewrite send_personal_message_eq Hl Hnet in Hbody.
  rewrite /websocket_step Hbody. split.
  - intros Hne. by destruct e.
  - intros -> Hinv%reachable_inv.
    destruct (disconnect_lookup user room m Hinv) as (m' & Hd & _ & Hnone & _).
    exists m'. by rewrite Hd broadcast_to_all.
Qed.

(** X7. A targeted frame whose [to_user] is not a string. A number, a
    boolean or [null] is never a key of the connection map: the frame is
    dropped and the session stays active. A list or an object cannot be
    hashed: when the sender's room is in the registry the lookup raises
    [TypeError], which leaves the endpoint; when the room is not in the
    registry the lookup is not reached and the frame is dropped. *)
Theorem targeted_relay_odd_target (m : ConnectionManager) (net : transport)
    (room user data : string) (v ty to_user : json) :
  subscript v "type" = Return ty →
  targeted ty = true →
  subscript v "to_user" = Return to_user →
  (as_key to_user = OtherKey →
   websocket_step (Text data (Some v)) room user m net = (m, [], Active)) ∧
  (as_key to_user = Unhashable →
   websocket_step (Text data (Some v)) room user m net =
     if decide (is_Some (active_connections m !! room))
     then (m, [], Aborted TypeError) else (m, [], Active)).
Proof.
  intros Hty Htarg Hto.
  rewrite /websocket_step (loop_body_targeted data v ty _ room user m net Hty Htarg Hto).
  rewrite /send_personal_message.
  split; intros ->; by destruct (active_connections m !! room) as [conns|].
Qed.

(** * Properties of the room endpoints *)

(** ** Facts about the store operations *)

Lemma find_one_elem rid rooms room :
  find_one rid rooms = Some room → room ∈ rooms.
Proof.
  induction rooms as [|x rooms IH]; simpl; [done|].
  case_decide; [intros [= <-]; left | intros ?; right; auto].
Qed.

Lemma find_one_update_one_ne rid rid' f rooms :
  (∀ x, ChatRoom.id (f x) = ChatRoom.id x) →
  rid ≠ rid' →
  find_one rid' (update_one rid f rooms) = find_one rid' rooms.
Proof.
  intros Hid Hne. induction rooms as [|x rooms IH]; simpl; [done|].
  destruct (decide (ChatRoom.id x = rid)) as [Hx|Hx]; simpl.
  - rewrite Hid. by destruct (decide (ChatRoom.id x = rid')); [congruence|].
  - by rewrite IH.
Qed.

Lemma find_one_delete_one_ne rid rid' rooms :
  rid ≠ rid' → find_one rid' (delete_one rid rooms) = find_one rid' rooms.
Proof.
  intros Hne. induction rooms as [|x rooms IH]; simpl; [done|].
  destruct (decide (ChatRoom.id x = rid)) as [Hx|Hx]; simpl.
  - by destruct (decide (ChatRoom.id x = rid')); [congruence|].
  - by rewrite IH.
Qed.

Lemma ids_update_one rid f rooms :
  (∀ x, ChatRoom.id (f x) = ChatRoom.id x) →
  ChatRoom.id <$> update_one rid f rooms = ChatRoom.id <$> rooms.
Proof.
  intros Hid. induction rooms as [|x rooms IH]; simpl; [done|].
  case_decide; simpl; [by rewrite Hid | by f_equal].
Qed.

Lemma update_one_absent rid f rooms :
  find_one rid rooms = None → update_one rid f rooms = rooms.
Proof.
  induction rooms as [|x rooms IH]; simpl; [done|].
  case_decide; [done|]. intros ?. by rewrite IH.
Qed.

Lemma update_one_update_one rid f g rooms :
  (∀ x, ChatRoom.id (f x) = ChatRoom.id x) →
  update_one rid g (update_one rid f rooms) = update_one rid (g ∘ f) rooms.
Proof.
  intros Hid. induction rooms as [|x rooms IH]; simpl; [done|].
  destruct (decide (ChatRoom.id x = rid)) as [Hx|Hx]; simpl.
  - by rewrite Hid decide_True.
  - by rewrite decide_False // IH.
Qed.

Lemma update_one_same rid f rooms room :
  find_one rid rooms = Some room → f room = room →
  update_one rid f rooms = rooms.
Proof.
  induction rooms as [|x rooms IH]; simpl; [done|].
  case_decide; [by intros [= ->] -> | intros ??; by rewrite IH].
Qed.

Lemma Forall_update_one (P : ChatRoom.t → Prop) rid f rooms :
  Forall P rooms →
  (∀ x, x ∈ rooms → ChatRoom.id x = rid → P x → P (f x)) →
  Forall P (update_one rid f rooms).
Proof.
  induction rooms as [|x rooms IH]; simpl; [done|].
  intros [Hx Hall]%Forall_cons Hf.
  case_decide.
  - apply Forall_cons. split; [|done]. apply Hf; [left|done|done].
  - apply Forall_cons. split; [done|]. apply IH; [done|].
    intros y Hy. apply Hf. by right.
Qed.

Lemma Forall_delete_one (P : ChatRoom.t → Prop) rid rooms :
  Forall P rooms → Forall P (delete_one rid rooms).
Proof.
  induction rooms as [|x rooms IH]; simpl; [done|].
  intros [Hx Hall]%Forall_cons. case_decide; [done|].
  apply Forall_cons. auto.
Qed.

Lemma NoDup_ids_delete_one rid rooms :
  NoDup (ChatRoom.id <$> rooms) → NoDup (ChatRoom.id <$> delete_one rid rooms).
Proof.
  induction rooms as [|x rooms IH]; simpl; [done|].
  intros [Hx Hnd]%NoDup_cons. case_decide; [done|]. simpl.
  apply NoDup_cons. split; [|auto].
  intros (y & Hy & Hin)%list_elem_of_fmap. apply Hx, list_elem_of_fmap.
  exists y. split; [done|].
  clear -Hin. induction rooms as [|z rooms IH]; simpl in *; [done|].
  destruct (decide (ChatRoom.id z = rid)); [by right|].
  apply elem_of_cons in Hin as [->|Hin]; [left | right; auto].
Qed.

Lemma NoDup_pull x l : NoDup l → NoDup (pull x l).
Proof. apply NoDup_filter. Qed.

Lemma pull_absent x l : x ∉ l → pull x l = l.
Proof. intros Hx. apply filter_all. intros y Hy ->. done. Qed.

Lemma pull_app_last x l : x ∉ l → pull x (l ++ [x]) = l.
Proof.
  intros Hx. rewrite /pull filter_app filter_cons_False; [naive_solver|].
  by rewrite filter_nil app_nil_r -/(pull x l) pull_absent.
Qed.

Lemma length_pull x l : length (pull x l) ≤ length l.
Proof. apply length_filter. Qed.

Lemma room_is_full_false room :
  room_is_full room = false ↔
  (Z.of_nat (length (ChatRoom.participants room)) < ChatRoom.max_users room)%Z.
Proof. rewrite /room_is_full bool_decide_eq_false. lia. Qed.

Lemma room_is_full_true room :
  room_is_full room = true ↔
  (ChatRoom.max_users room ≤ Z.of_nat (length (ChatRoom.participants room)))%Z.
Proof. by rewrite /room_is_full bool_decide_eq_true. Qed.

(** ** Joining *)

Lemma json_dumps_user_joined current_user room_id :
  json_dumps (user_joined current_user room_id) = Raise TypeError.
Proof.
  rewrite /json_dumps /user_joined /user_response_dict /=.
  by destruct (User.avatar_url current_user).
Qed.

(** X8. [join_room] answers 404 for a room that is not in the store and 400
    for a room that [get_room] reports as full, whoever asks, a current
    participant included; in both cases the store is left as it is and
    nothing is written. It answers 400 for no room that [get_room] reports as
    not full. *)
Theorem join_room_refusals (rooms : list ChatRoom.t) (users : list User.t)
    (room_id : string) :
  (find_one room_id rooms = None →
   get_room room_id rooms users = Raise (HTTPException 404) ∧
   ∀ current_user m net,
     join_room room_id current_user rooms m net =
       (rooms, [], Raise (HTTPException 404))) ∧
  (∀ room, find_one room_id rooms = Some room →
   ∃ resp, get_room room_id rooms users = Return resp ∧
     (ChatRoomResponse.is_full resp = true →
      ∀ current_user m net,
        join_room room_id current_user rooms m net =
          (rooms, [], Raise (HTTPException 400))) ∧
     (ChatRoomResponse.is_full resp = false →
      ∀ current_user m net,
        (join_room room_id current_user rooms m net).2
          ≠ Raise (HTTPException 400))).
Proof.
  split.
  - intros Hfind. rewrite /get_room /join_room Hfind. done.
  - intros room Hfind. rewrite /get_room /join_room Hfind.
    eexists; split; [done|]. simpl. split; intros Hfull *; rewrite Hfull //.
    by rewrite json_dumps_user_joined.
Qed.

(** X9. [join_room] never returns its acknowledgment. The notification
    object holds the user's [created_at], a [datetime], so [json.dumps]
    raises [TypeError] whenever it is reached, after the store has been
    written: for a room that exists and is not full, the user is appended to
    the room's participant list unless already in it, nothing else in the
    store changes (the other fields of the record and every other room are as
    before, and the room is still within its capacity), nothing is written to
    any handle, and the outcome is [TypeError]. *)
Theorem join_room_adds_then_raises (rooms : list ChatRoom.t)
    (m : ConnectionManager) (net : transport) (room_id : string)
    (current_user : User.t) :
  (∃ e, (join_room room_id current_user rooms m net).2 = Raise e ∧
        e ∈ [HTTPException 404; HTTPException 400; TypeError]) ∧
  (∀ room,
     find_one room_id rooms = Some room →
     room_is_full room = false →
     ∃ rooms' room',
       join_room room_id current_user rooms m net =
         (rooms', [], Raise TypeError) ∧
       find_one room_id rooms' = Some room' ∧
       room' =
         ChatRoom.mk (ChatRoom.id room) (ChatRoom.name room)
           (ChatRoom.language room) (ChatRoom.level room)
           (ChatRoom.max_users room) (ChatRoom.is_private room)
           (ChatRoom.created_by room)
           (if decide (User.id current_user ∈ ChatRoom.participants room)
            then ChatRoom.participants room
            else ChatRoom.participants room ++ [User.id current_user])
           (ChatRoom.active_speakers room) ∧
       (User.id current_user ∈ ChatRoom.participants room') ∧
       (Z.of_nat (length (ChatRoom.participants room'))
        ≤ ChatRoom.max_users room')%Z ∧
       (∀ rid, rid ≠ room_id → find_one rid rooms' = find_one rid rooms) ∧
       (ChatRoom.id <$> rooms') = (ChatRoom.id <$> rooms)).
Proof.
  split.
  - rewrite /join_room json_dumps_user_joined.
    destruct (find_one room_id rooms) as [room|]; simpl;
      [|eexists; split; [done | left]].
    destruct (room_is_full room); simpl;
      eexists; (split; [done|]); [right; left | right; right; left].
  - intros room Hfind Hfull.
    rewrite /join_room Hfind Hfull json_dumps_user_joined.
    apply room_is_full_false in Hfull.
    set (u := User.id current_user) in *.
    assert (∀ x, ChatRoom.id (push_participant u x) = ChatRoom.id x) as Hid by done.
    destruct (decide (u ∈ ChatRoom.participants room)) as [Hin|Hnin].
    + eexists _, _. split_and!; try done.
      * by destruct room.
      * lia.
    + eexists _, _. split_and!; try done.
      * exact (find_one_update_one _ _ _ _ Hid Hfind).
      * simpl. apply elem_of_app. right. by apply list_elem_of_singleton.
      * rewrite /= length_app /=. lia.
      * intros rid Hne. by apply find_one_update_one_ne.
      * by apply ids_update_one.
Qed.



(** ** What the store-writing endpoints keep *)

Lemma store_ok_update_one rid f rooms :
  (∀ x, ChatRoom.id (f x) = ChatRoom.id x) →
  (∀ x, NoDup (ChatRoom.participants x) → NoDup (ChatRoom.participants (f x))) →
  store_ok rooms → store_ok (update_one rid f rooms).
Proof.
  intros Hid Hf [Hids Hps]. split.
  - by rewrite ids_update_one.
  - apply Forall_update_one; [done|]. intros x _ _. apply Hf.
Qed.

Lemma store_ok_delete_one rid rooms :
  store_ok rooms → store_ok (delete_one rid rooms).
Proof.
  intros [Hids Hps]. split; [by apply NoDup_ids_delete_one|].
  by apply Forall_delete_one.
Qed.

Lemma within_capacity_update_one rid f rooms :
  (∀ x, x ∈ rooms → ChatRoom.id x = rid →
        (Z.of_nat (length (ChatRoom.participants x)) ≤ ChatRoom.max_users x)%Z →
        (Z.of_nat (length (ChatRoom.participants (f x)))
         ≤ ChatRoom.max_users (f x))%Z) →
  within_capacity rooms → within_capacity (update_one rid f rooms).
Proof. intros Hf Hcap. by apply Forall_update_one. Qed.

Lemma join_room_store rooms m net room_id current_user :
  (join_room room_id current_user rooms m net).1.1 = rooms ∨
  ∃ room, find_one room_id rooms = Some room ∧
          room_is_full room = false ∧
          (User.id current_user ∉ ChatRoom.participants room) ∧
          (join_room room_id current_user rooms m net).1.1 =
            update_one room_id (push_participant (User.id current_user)) rooms.
Proof.
  rewrite /join_room json_dumps_user_joined.
  destruct (find_one room_id rooms) as [room|]; [|by left].
  destruct (room_is_full room) eqn:Hfull; [by left|].
  destruct (decide (User.id current_user ∈ ChatRoom.participants room)).
  - by left.
  - right. by exists room.
Qed.

Lemma leave_room_store_cases rooms m net room_id u :
  let rooms' := (leave_room room_id u rooms m net).1.1.1 in
  rooms' = rooms ∨
  rooms' = update_one room_id (pull_user u) rooms ∨
  rooms' = delete_one room_id rooms ∨
  rooms' = delete_one room_id (update_one room_id (pull_user u) rooms).
Proof.
  rewrite /leave_room. destruct (find_one room_id rooms) as [room|]; [|by left].
  destruct (disconnect u room_id m) as [m1 [[]|e]]; simpl;
    last by (case_decide; auto).
  destruct (broadcast_to_room _ _ _ _ _) as [tr [[]|e]]; simpl;
    last by (case_decide; auto).
  destruct (decide (u ∈ ChatRoom.participants room)).
  - destruct (find_one room_id (update_one _ _ _)); simpl; [|auto].
    case_decide; auto.
  - destruct (find_one room_id rooms); simpl; [|auto]. case_decide; auto.
Qed.

Lemma Forall_update_one_found (P : ChatRoom.t → Prop) rid f rooms room :
  find_one rid rooms = Some room →
  Forall P rooms → P (f room) → Forall P (update_one rid f rooms).
Proof.
  induction rooms as [|x rooms IH]; simpl; [done|].
  intros Hfind [Hx Hall]%Forall_cons Hf. case_decide.
  - injection Hfind as ->. by apply Forall_cons.
  - apply Forall_cons. auto.
Qed.

(** X11. The endpoints that write the room store keep it well formed. If no
    two rooms share an id, no room lists a participant twice and no room is
    over its [max_users], the same holds after [join_room], after
    [leave_room] and after [update_voice_status], whatever they answer. *)
Theorem room_endpoints_keep_store (rooms : list ChatRoom.t)
    (m : ConnectionManager) (net : transport) (room_id u : string)
    (current_user : User.t) (voice_data : VoiceStatus) :
  store_ok rooms →
  within_capacity rooms →
  (store_ok (join_room room_id current_user rooms m net).1.1 ∧
   within_capacity (join_room room_id current_user rooms m net).1.1) ∧
  (store_ok (leave_room room_id u rooms m net).1.1.1 ∧
   within_capacity (leave_room room_id u rooms m net).1.1.1) ∧
  (store_ok (update_voice_status voice_data u rooms m net).1.1 ∧
   within_capacity (update_voice_status voice_data u rooms m net).1.1).
Proof.
  intros Hok Hcap.
  assert (store_ok (update_one room_id (pull_user u) rooms)) as Hok_pull.
  { apply store_ok_update_one; [done| |done]. intros x. apply NoDup_pull. }
  assert (within_capacity (update_one room_id (pull_user u) rooms)) as Hcap_pull.
  { apply within_capacity_update_one; [|done]. intros x _ _ Hx. simpl.
    pose proof (length_pull u (ChatRoom.participants x)). lia. }
  split_and!.
  - destruct (join_room_store rooms m net room_id current_user)
      as [-> | (room & Hfind & Hfull & Hnin & ->)]; [done|].
    destruct Hok as [Hids Hps]. split; [by rewrite ids_update_one|].
    apply (Forall_update_one_found _ _ _ _ room); [done|done|]. simpl.
    apply NoDup_app. split_and!; [|by intros y Hy ->%list_elem_of_singleton
                                   |apply NoDup_singleton].
    rewrite Forall_forall in Hps. by apply Hps, (find_one_elem room_id).
  - destruct (join_room_store rooms m net room_id current_user)
      as [-> | (room & Hfind & Hfull%room_is_full_false & Hnin & ->)]; [done|].
    apply (Forall_update_one_found _ _ _ _ room); [done|done|]. simpl.
    rewrite length_app /=. lia.
  - destruct (leave_room_store_cases rooms m net room_id u)
      as [-> | [-> | [-> | ->]]]; auto using store_ok_delete_one.
  - destruct (leave_room_store_cases rooms m net room_id u)
      as [-> | [-> | [-> | ->]]]; auto; by apply Forall_delete_one.
  - rewrite /update_voice_status.
    destruct (broadcast_to_room _ _ _ _ _) as [tr [[]|e]]; simpl;
      destruct (is_speaking voice_data); by apply store_ok_update_one.
  - rewrite /update_voice_status.
    destruct (broadcast_to_room _ _ _ _ _) as [tr [[]|e]]; simpl;
      destruct (is_speaking voice_data);
      by apply within_capacity_update_one.
Qed.

(** X12. Joining and then leaving. For a user who is neither a participant
    nor an active speaker of a room that is not full, [leave_room] after
    [join_room] gives back the store as it was before the join, except when
    the room had no participant at all: then the record is deleted. *)
Theorem join_then_leave (rooms : list ChatRoom.t) (m : ConnectionManager)
    (net net' : transport) (room_id : string) (current_user : User.t)
    (room : ChatRoom.t) :
  reachable m →
  find_one room_id rooms = Some room →
  room_is_full room = false →
  User.id current_user ∉ ChatRoom.participants room →
  User.id current_user ∉ ChatRoom.active_speakers room →
  (leave_room room_id (User.id current_user)
     (join_room room_id current_user rooms m net).1.1 m net').1.1.1 =
    if decide (ChatRoom.participants room = [])
    then delete_one room_id rooms else rooms.
Proof.
  intros Hinv%reachable_inv Hfind Hfull Hnin Hnas.
  set (u := User.id current_user) in *.
  assert ((join_room room_id current_user rooms m net).1.1 =
          update_one room_id (push_participant u) rooms) as ->.
  { rewrite /join_room Hfind Hfull json_dumps_user_joined.
    by destruct (decide (User.id current_user ∈ ChatRoom.participants room)). }
  assert (∀ x, ChatRoom.id (push_participant u x) = ChatRoom.id x) as Hid by done.
  assert (∀ x, ChatRoom.id (pull_user u x) = ChatRoom.id x) as Hid' by done.
  destruct (disconnect_inv u room_id m Hinv) as (m' & Hd & _).
  rewrite /leave_room (find_one_update_one _ _ _ _ Hid Hfind) /= Hd broadcast_to_all.
  rewrite decide_True; [apply elem_of_app; right; by apply list_elem_of_singleton|].
  rewrite update_one_update_one //.
  assert (pull_user u (push_participant u room) = room) as Hback.
  { destruct room; rewrite /pull_user /push_participant /=. simpl in *.
    by rewrite pull_app_last // pull_absent. }
  rewrite (update_one_same room_id _ rooms room) //= Hfind /=.
  done.
Qed.

(** ** Leaving and the registry *)

(** What [leave_room] does to the registry for a room that is in the
    store. *)
Lemma leave_room_unregisters rooms m net room_id u room :
  reachable m →
  find_one room_id rooms = Some room →
  ∃ m', disconnect u room_id m = (m', Return tt) ∧
        reachable m' ∧
        (leave_room room_id u rooms m net).1.1.2 = m' ∧
        (leave_room room_id u rooms m net).1.2 =
          ((λ c, (c.2, user_left u room_id)) <$>
             default [] (active_connections m' !! room_id)) ∧
        lookup_handle room_id u m' = None.
Proof.
  intros Hreach Hfind. pose proof (reachable_inv m Hreach) as Hinv.
  destruct (disconnect_lookup u room_id m Hinv) as (m' & Hd & _ & Hnone & _).
  exists m'. split_and!; [done| | | |done].
  - exact (reachable_step (Disconnect u room_id) m m' Hreach Hd).
  - rewrite /leave_room Hfind Hd broadcast_to_all.
    case_match; reflexivity.
  - rewrite /leave_room Hfind Hd broadcast_to_all.
    case_match; reflexivity.
Qed.

(** X13. [leave_room] and the registry, from a reachable state. For a room
    that is not in the store the answer is 404 and neither the store nor the
    registry changes, even when the user has a handle registered under that
    room id. For a room in the store, the user's pair is unregistered, the
    [user_left] notification is written to every handle still registered in
    the room and to no other, and the registry that results is reachable. *)
Theorem leave_room_registry (rooms : list ChatRoom.t) (m : ConnectionManager)
    (net : transport) (room_id u : string) :
  reachable m →
  (find_one room_id rooms = None →
   leave_room room_id u rooms m net = (rooms, m, [], Raise (HTTPException 404))) ∧
  (∀ room, find_one room_id rooms = Some room →
   ∃ m', disconnect u room_id m = (m', Return tt) ∧
         reachable m' ∧
         (leave_room room_id u rooms m net).1.1.2 = m' ∧
         (leave_room room_id u rooms m net).1.2 =
           ((λ c, (c.2, user_left u room_id)) <$>
              default [] (active_connections m' !! room_id)) ∧
         lookup_handle room_id u m' = None).
Proof.
  intros Hreach. split.
  - intros Hfind. by rewrite /leave_room Hfind.
  - intros room Hfind. by eapply leave_room_unregisters.
Qed.

(** A broadcast-class frame: the turn is the broadcast that excludes the
    sender, and the session stays active. *)
Lemma websocket_step_broadcast data v ty r user m net :
  subscript v "type" = Return ty → targeted ty = false →
  websocket_step (Text data (Some v)) r user m net =
    (m,
     (λ c, (c.2, Raw data)) <$>
       filter (λ c, Some c.1 ≠ Some user) (default [] (active_connections m !! r)),
     Active).
Proof.
  intros Hty Htarg.
  rewrite /websocket_step /loop_body /mbind /io_bind /lift /= Hty.
  rewrite /targeted in Htarg.
  apply orb_false_iff in Htarg as [[H1 H2]%orb_false_iff H3].
  by rewrite H1 H2 H3 !broadcast_to_room_eq.
Qed.

(** X14. [leave_room] unregisters the user but does not end the user's
    websocket session. A broadcast-class frame that the session receives
    afterwards is still written to every handle registered in the room, and
    when the session finally disconnects, the registry is left as it is and
    [user_disconnected] for the user is written to every handle of the room,
    after the [user_left] they were sent at the leave. *)
Theorem session_after_leave (rooms : list ChatRoom.t) (m : ConnectionManager)
    (net net' : transport) (room_id u data : string) (room : ChatRoom.t)
    (v ty : json) :
  reachable m →
  find_one room_id rooms = Some room →
  subscript v "type" = Return ty →
  targeted ty = false →
  let m' := (leave_room room_id u rooms m net).1.1.2 in
  let handles := (default [] (active_connections m' !! room_id)).*2 in
  websocket_step (Text data (Some v)) room_id u m' net' =
    (m', (λ ws, (ws, Raw data)) <$> handles, Active) ∧
  websocket_step Disconnected room_id u m' net' =
    (m', (λ ws, (ws, user_disconnected u)) <$> handles, Closed).
Proof.
  intros Hreach Hfind Hty Htarg.
  destruct (leave_room_unregisters rooms m net room_id u room Hreach Hfind)
    as (m' & Hd & Hreach' & -> & _ & Hnone).
  simpl. rewrite -!list_fmap_compose. split.
  - rewrite (websocket_step_broadcast data v ty room_id u m' net' Hty Htarg).
    f_equal. f_equal. f_equal.
    apply filter_all. intros [u' ws'] Hin [= ->].
    rewrite /lookup_handle in Hnone.
    destruct (active_connections m' !! room_id) as [conns|]; simpl in *;
      [|by apply elem_of_nil in Hin].
    apply get_None in Hnone. apply Hnone, list_elem_of_fmap. by exists (u, ws').
  - rewrite /websocket_step /=.
    rewrite (disconnect_not_registered u room_id m' Hnone).
    by rewrite broadcast_to_all.
Qed.

(** ** Voice status *)

Lemma elem_of_add_to_set x y l : x ∈ add_to_set y l ↔ x = y ∨ x ∈ l.
Proof.
  rewrite /add_to_set. case_decide.
  - naive_solver.
  - rewrite elem_of_app list_elem_of_singleton. naive_solver.
Qed.

Lemma NoDup_add_to_set y l : NoDup l → NoDup (add_to_set y l).
Proof.
  intros Hnd. rewrite /add_to_set. case_decide; [done|].
  apply NoDup_app. split_and!; [done| |apply NoDup_singleton].
  by intros x Hx ->%list_elem_of_singleton.
Qed.

(** X15. [update_voice_status] always answers with its acknowledgment: it
    checks neither that the room exists nor that the user named in the
    request is a participant. On a room that is not in the store it changes
    nothing; on a stored room it changes only that room's active speakers
    (every other field of the record, the participants among them, and every
    other room are as before), adding the named user once, at the end, when
    [is_speaking] is set and the user is not yet listed, and removing every
    occurrence otherwise. The update is written to every handle registered in
    the room except the entry of the authenticated caller, who need not be
    the user named in the request. *)
Theorem update_voice_status_effect (rooms : list ChatRoom.t)
    (m : ConnectionManager) (net : transport) (voice_data : VoiceStatus)
    (current_user_id : string) :
  ∃ rooms' tr,
    update_voice_status voice_data current_user_id rooms m net =
      (rooms', tr, Return (JObj [("message", JStr "Voice status updated")])) ∧
    tr = ((λ c, (c.2, voice_status_update voice_data)) <$>
            filter (λ c, Some c.1 ≠ Some current_user_id)
              (default [] (active_connections m !! voice_room_id voice_data))) ∧
    (find_one (voice_room_id voice_data) rooms = None → rooms' = rooms) ∧
    (∀ rid, rid ≠ voice_room_id voice_data →
            find_one rid rooms' = find_one rid rooms) ∧
    (ChatRoom.id <$> rooms') = (ChatRoom.id <$> rooms) ∧
    (∀ room, find_one (voice_room_id voice_data) rooms = Some room →
       ∃ room', find_one (voice_room_id voice_data) rooms' = Some room' ∧
         room' =
           ChatRoom.mk (ChatRoom.id room) (ChatRoom.name room)
             (ChatRoom.language room) (ChatRoom.level room)
             (ChatRoom.max_users room) (ChatRoom.is_private room)
             (ChatRoom.created_by room) (ChatRoom.participants room)
             (ChatRoom.active_speakers room') ∧
         ChatRoom.active_speakers room' =
           (if is_speaking voice_data
            then if decide (voice_user_id voice_data
                            ∈ ChatRoom.active_speakers room)
                 then ChatRoom.active_speakers room
                 else ChatRoom.active_speakers room ++ [voice_user_id voice_data]
            else filter (λ x, x ≠ voice_user_id voice_data)
                   (ChatRoom.active_speakers room)) ∧
         (NoDup (ChatRoom.active_speakers room) →
          NoDup (ChatRoom.active_speakers room')) ∧
         ∀ x, x ∈ ChatRoom.active_speakers room' ↔
              if is_speaking voice_data
              then x = voice_user_id voice_data ∨ x ∈ ChatRoom.active_speakers room
              else x ∈ ChatRoom.active_speakers room ∧ x ≠ voice_user_id voice_data).
Proof.
  rewrite /update_voice_status broadcast_to_room_eq.
  eexists _, _. split; [done|]. split; [done|].
  destruct (is_speaking voice_data); (split_and!;
    [intros Hnone; by apply update_one_absent
    |intros rid Hne; by apply find_one_update_one_ne
    |by apply ids_update_one
    |intros room Hfind; eexists; split; [by apply find_one_update_one|]]); simpl.
  - split_and!; [done|done|apply NoDup_add_to_set|].
    intros x. apply elem_of_add_to_set.
  - split_and!; [done|done|apply NoDup_pull|]. intros x.
    rewrite /pull list_elem_of_filter. naive_solver.
Qed.

Lemma update_one_ext rid f g rooms :
  (∀ x, f x = g x) → update_one rid f rooms = update_one rid g rooms.
Proof.
  intros Hfg. induction rooms as [|x rooms IH]; simpl; [done|].
  case_decide; [by rewrite Hfg | by rewrite IH].
Qed.

Lemma add_to_set_twice x l : add_to_set x (add_to_set x l) = add_to_set x l.
Proof.
  rewrite {1}/add_to_set decide_True //. apply elem_of_add_to_set. by left.
Qed.

Lemma pull_twice x l : pull x (pull x l) = pull x l.
Proof. apply pull_absent, not_elem_of_pull. Qed.

Lemma pull_add_to_set x l : pull x (add_to_set x l) = pull x l.
Proof.
  rewrite /add_to_set. case_decide; [done|].
  rewrite /pull filter_app filter_cons_False; [naive_solver|].
  by rewrite filter_nil app_nil_r.
Qed.

(** X16. Repeating a voice status leaves the store as the first call made it,
    and a status with [is_speaking] unset that follows one with it set, for
    the same room and user, leaves the store as if only the second had been
    sent. Neither the caller nor the registry nor the transport matters. *)
Theorem update_voice_status_repeat (rooms : list ChatRoom.t)
    (m m' : ConnectionManager) (net net' : transport)
    (room_id user_id cu cu' : string) (speaking muted muted' : bool) :
  let status (s mu : bool) :=
    {| voice_room_id := room_id; voice_user_id := user_id;
       is_speaking := s; is_muted := mu |} in
  let after (s mu : bool) (c : string) (mgr : ConnectionManager)
      (n : transport) (rs : list ChatRoom.t) :=
    (update_voice_status (status s mu) c rs mgr n).1.1 in
  after speaking muted' cu' m' net' (after speaking muted cu m net rooms) =
    after speaking muted cu m net rooms ∧
  after false muted' cu' m' net' (after true muted cu m net rooms) =
    after false muted' cu' m' net' rooms.
Proof.
  simpl. rewrite /update_voice_status !broadcast_to_room_eq /=.
  split.
  - destruct speaking; rewrite update_one_update_one //;
      apply update_one_ext; intros x; rewrite /add_speaker /pull_speaker /=;
      by rewrite ?add_to_set_twice ?pull_twice.
  - rewrite update_one_update_one //. apply update_one_ext. intros x.
    by rewrite /add_speaker /pull_speaker /= pull_add_to_set.
Qed.

(** ** Reading rooms *)

Lemma find_one_unique rooms room :
  NoDup (ChatRoom.id <$> rooms) → room ∈ rooms →
  find_one (ChatRoom.id room) rooms = Some room.
Proof.
  induction rooms as [|x rooms IH]; simpl; intros Hnd Hin.
  - by apply elem_of_nil in Hin.
  - apply NoDup_cons in Hnd as [Hx Hnd].
    apply elem_of_cons in Hin as [->|Hin]; [by rewrite decide_True|].
    rewrite decide_False; [|by apply IH].
    intros Heq. apply Hx. rewrite Heq. apply list_elem_of_fmap. by exists room.
Qed.

(** X17. When no two stored rooms share an id, [get_rooms] and [get_room]
    agree: every response listed by [get_rooms] is what [get_room] answers
    for that room's id. [get_rooms] lists at most the first 1000 rooms of the
    store, although [get_room] finds the ones beyond. *)
Theorem get_rooms_agrees_with_get_room (rooms : list ChatRoom.t)
    (users : list User.t) :
  NoDup (ChatRoom.id <$> rooms) →
  length (get_rooms rooms users) = min 1000 (length rooms) ∧
  (∀ resp, resp ∈ get_rooms rooms users →
           get_room (ChatRoomResponse.id resp) rooms users = Return resp) ∧
  (∀ room, room ∈ rooms →
           get_room (ChatRoom.id room) rooms users =
             Return (room_response users room)).
Proof.
  intros Hnd. rewrite /get_rooms /get_room. split_and!.
  - by rewrite length_fmap length_take.
  - intros resp (room & -> & Hin)%list_elem_of_fmap. simpl.
    apply subseteq_take in Hin. by rewrite find_one_unique.
  - intros room Hin. by rewrite find_one_unique.
Qed.

(** X18. The response for a room counts the ids of the room's participant
    list. The participants it shows are the stored users whose id is in that
    list; when no two users share an id there are never more of them than the
    count, and there can be fewer, since ids without a stored user are
    counted and not shown. *)
Theorem room_response_participants (users : list User.t) (room : ChatRoom.t) :
  NoDup (User.id <$> users) →
  let resp := room_response users room in
  ChatRoomResponse.participant_count resp =
    Z.of_nat (length (ChatRoom.participants room)) ∧
  (Z.of_nat (length (ChatRoomResponse.participants resp))
   ≤ ChatRoomResponse.participant_count resp)%Z ∧
  (∀ p, p ∈ ChatRoomResponse.participants resp →
        UserResponse.id p ∈ ChatRoom.participants room ∧
        ∃ user, user ∈ users ∧ p = user_response user) ∧
  ((∀ user, user ∈ users → User.id user ∉ ChatRoom.participants room) →
   ChatRoomResponse.participants resp = []).
Proof.
  intros Hnd. simpl. split; [done|].
  destruct (decide (ChatRoom.participants room = [])) as [He|Hne].
  { split_and!; [simpl; lia| by intros p ?%elem_of_nil | done]. }
  rewrite /find_users_in. split_and!.
  - rewrite length_fmap.
    set (found := take 1000 (filter _ users)).
    assert (found `sublist_of` users) as Hsub.
    { etrans; [apply sublist_take | apply sublist_filter]. }
    assert (NoDup (User.id <$> found)) as Hnd'.
    { eapply sublist_NoDup; [exact Hnd|]. by apply fmap_sublist. }
    assert (length (User.id <$> found) ≤ length (ChatRoom.participants room)) as Hlen.
    { apply submseteq_length, NoDup_submseteq; [done|].
      intros x (user & -> & Hin)%list_elem_of_fmap.
      apply subseteq_take in Hin. by apply list_elem_of_filter in Hin as [? _]. }
    rewrite length_fmap in Hlen. lia.
  - intros p (user & -> & Hin)%list_elem_of_fmap.
    apply subseteq_take in Hin. apply list_elem_of_filter in Hin as [Hid Hin].
    split; [done|]. by exists user.
  - intros Hnone. by rewrite filter_none.
Qed.

(** * Properties of the account endpoints *)

Lemma find_user_by_email_None email users :
  find_user_by_email email users = None ↔ email ∉ User.email <$> users.
Proof.
  induction users as [|x users IH]; simpl.
  - split; [intros _; apply not_elem_of_nil | done].
  - destruct (decide (User.email x = email)) as [<-|Hne].
    + split; [done | intros []; left].
    + rewrite IH not_elem_of_cons. naive_solver.
Qed.

Lemma find_user_by_username_None username users :
  find_user_by_username username users = None ↔
  username ∉ User.username <$> users.
Proof.
  induction users as [|x users IH]; simpl.
  - split; [intros _; apply not_elem_of_nil | done].
  - destruct (decide (User.username x = username)) as [<-|Hne].
    + split; [done | intros []; left].
    + rewrite IH not_elem_of_cons. naive_solver.
Qed.

Lemma find_user_by_email_Some email users user :
  find_user_by_email email users = Some user →
  user ∈ users ∧ User.email user = email.
Proof.
  induction users as [|x users IH]; simpl; [done|].
  case_decide.
  - intros [= <-]. split; [left | done].
  - intros [? ?]%IH. split; [by right | done].
Qed.

Lemma find_user_by_email_app_last email users user :
  find_user_by_email email (users ++ [user]) =
    match find_user_by_email email users with
    | Some x => Some x
    | None => if decide (User.email user = email) then Some user else None
    end.
Proof.
  induction users as [|x users IH]; simpl; [done|].
  destruct (decide (User.email x = email)); [done | by rewrite IH].
Qed.

Lemma find_user_update email email' f users :
  (∀ x, User.email (f x) = User.email x) →
  find_user_by_email email' (update_user_by_email email f users) =
    if decide (email = email')
    then f <$> find_user_by_email email' users
    else find_user_by_email email' users.
Proof.
  intros Hf. induction users as [|x users IH]; simpl; [by case_decide|].
  destruct (decide (User.email x = email)) as [Hx|Hx]; simpl.
  - rewrite Hf. destruct (decide (email = email')) as [<-|Hne];
      destruct (decide (User.email x = _)); (done || congruence).
  - rewrite IH. destruct (decide (email = email')) as [<-|Hne];
      destruct (decide (User.email x = _)); (done || congruence).
Qed.

Lemma update_user_keeps (g : User.t → string) email f users :
  (∀ x, g (f x) = g x) →
  g <$> update_user_by_email email f users = g <$> users.
Proof.
  intros Hf. induction users as [|x users IH]; simpl; [done|].
  case_decide; simpl; [by rewrite Hf | by f_equal].
Qed.

Lemma update_user_absent email f users :
  find_user_by_email email users = None →
  update_user_by_email email f users = users.
Proof.
  induction users as [|x users IH]; simpl; [done|].
  case_decide; [done|]. intros ?. by rewrite IH.
Qed.

Section account_properties.
Context `{Libraries}.

(** X19. [register] keeps emails and usernames unique. On a store where no
    two users share an email or a username, it answers 400 and leaves the
    store as it is when the email or the username is taken; otherwise it
    appends one user, with the id, email, username and hash given, marked
    online, whom a search by that email finds, and answers with a bearer
    token and that user. The stored record has its two timestamps cut to the
    millisecond, while the user in the answer has [created_at] as the clock
    gave it. Either way the store still has unique emails and usernames. *)
Theorem register_effect (user_data : UserCreate) (new_id hashed : string)
    (created active token_time : Z) (users : list User.t) :
  accounts_ok users →
  ∃ users' resp,
    register user_data new_id hashed created active token_time users =
      (users', resp) ∧
    accounts_ok users' ∧
    (create_email user_data ∈ User.email <$> users ∨
     create_username user_data ∈ User.username <$> users →
     users' = users ∧ resp = Raise (HTTPException 400)) ∧
    (create_email user_data ∉ User.email <$> users →
     create_username user_data ∉ User.username <$> users →
     ∃ stored tok,
       users' = users ++ [stored] ∧ resp = Return tok ∧
       stored =
         User.mk new_id (create_email user_data) (create_username user_data)
           hashed None true (created / 1000 * 1000)%Z (active / 1000 * 1000)%Z ∧
       Token.user tok =
         UserResponse.mk new_id (create_email user_data)
           (create_username user_data) None true created ∧
       Token.token_type tok = "bearer" ∧
       find_user_by_email (create_email user_data) users' = Some stored).
Proof.
  intros [Hemails Hnames]. rewrite /register.
  destruct (find_user_by_email _ users) as [x|] eqn:He.
  { eexists _, _. split_and!; [done|done|done|].
    intros Hfresh%find_user_by_email_None. congruence. }
  destruct (find_user_by_username _ users) as [x|] eqn:Hn.
  { eexists _, _. split_and!; [done|done|done|].
    intros _ Hfresh%find_user_by_username_None. congruence. }
  pose proof He as He'%find_user_by_email_None.
  pose proof Hn as Hn'%find_user_by_username_None.
  eexists _, _. split_and!; [done| | |].
  - split; rewrite fmap_app /=; (apply NoDup_app; split_and!;
      [done|by intros x Hx ->%list_elem_of_singleton|apply NoDup_singleton]).
  - intros [?|?]; done.
  - intros _ _. eexists _, _. split_and!; try done.
    by rewrite find_user_by_email_app_last He /= decide_True.
Qed.

(** X20. [login] leaves the store as it is whenever it raises: 401 when no
    user has the email or the password does not verify against the first
    such user's hash, and the exception of [verify_password] when that call
    raises. When it returns, that user is marked online with the time of the
    login cut to the millisecond, and the user shown in the answer is the one
    read before the update, so its [is_online] is the value stored before
    this login. No login changes an id, an email, a username or a hash, and
    no other user's record. *)
Theorem login_effect (user_data : UserLogin) (now token_time : Z)
    (users : list User.t) :
  ∃ users' resp,
    login user_data now token_time users = (users', resp) ∧
    (∀ e, resp = Raise e → users' = users) ∧
    (find_user_by_email (login_email user_data) users = None →
     resp = Raise (HTTPException 401)) ∧
    (∀ user,
       find_user_by_email (login_email user_data) users = Some user →
       match verify_password (login_password user_data)
               (User.password_hash user) with
       | Raise e => resp = Raise e
       | Return false => resp = Raise (HTTPException 401)
       | Return true =>
           ∃ tok, resp = Return tok ∧
             Token.user tok = user_response user ∧
             find_user_by_email (login_email user_data) users' =
               Some (User.mk (User.id user) (User.email user)
                       (User.username user) (User.password_hash user)
                       (User.avatar_url user) true (User.created_at user)
                       (now / 1000 * 1000)%Z)
       end) ∧
    (λ x, (User.id x, User.email x, User.username x, User.password_hash x))
      <$> users' =
    (λ x, (User.id x, User.email x, User.username x, User.password_hash x))
      <$> users ∧
    (∀ email, email ≠ login_email user_data →
              find_user_by_email email users' = find_user_by_email email users).
Proof.
  rewrite /login.
  destruct (find_user_by_email _ users) as [user|] eqn:Hfind; last first.
  { eexists _, _. split_and!; try done. }
  destruct (verify_password _ _) as [[]|e] eqn:Hv.
  - eexists _, _. split_and!; try done.
    + intros user' [= <-]. rewrite Hv. eexists. split_and!; try done.
      rewrite find_user_update // decide_True // Hfind //.
    + induction users as [|x users IH] in Hfind |- *; simpl; [done|].
      simpl in Hfind. case_decide; simpl; [done|]. f_equal. by apply IH.
    + intros email Hne. rewrite find_user_update // decide_False //.
  - eexists _, _. split_and!; try done.
    intros user' [= <-]. by rewrite Hv.
  - eexists _, _. split_and!; try done.
    intros user' [= <-]. by rewrite Hv.
Qed.

(** X21. Logging in and then out. After a [login] of a user that returns
    and a [logout] of that user, the stored record of the user is the one
    from before the login except that it is offline and [last_active] is the
    time of the logout cut to the millisecond; every other email resolves as
    before the login. When no stored user has the email of the user logging
    out, [logout] changes nothing. *)
Theorem login_then_logout (user_data : UserLogin) (now token_time now' : Z)
    (users : list User.t) (user : User.t) (tok : Token.t)
    (users1 : list User.t) :
  find_user_by_email (login_email user_data) users = Some user →
  login user_data now token_time users = (users1, Return tok) →
  let users2 := (logout user now' users1).1 in
  find_user_by_email (login_email user_data) users2 =
    Some (User.mk (User.id user) (User.email user) (User.username user)
            (User.password_hash user) (User.avatar_url user) false
            (User.created_at user) (now' / 1000 * 1000)%Z) ∧
  (∀ email, email ≠ login_email user_data →
            find_user_by_email email users2 = find_user_by_email email users) ∧
  (∀ stranger,
     find_user_by_email (User.email stranger) users = None →
     (logout stranger now' users).1 = users).
Proof.
  intros Hfind Hlogin. simpl.
  destruct (find_user_by_email_Some _ _ _ Hfind) as [_ Hemail].
  move: Hlogin. rewrite /login Hfind.
  destruct (verify_password _ _) as [[]|e]; [|done|done]. intros [= <- _].
  rewrite -Hemail in Hfind |- *. split_and!.
  - rewrite !find_user_update // !decide_True // Hfind. reflexivity.
  - intros email Hne. rewrite !find_user_update // !decide_False //.
  - intros stranger Hnone. by apply update_user_absent.
Qed.

(** X22. [get_current_user] answers with a user only when the token decodes
    to claims whose [sub] is a string, and then with the first stored user
    that has this string as email; in every other case it raises 401. *)
Theorem get_current_user_sound (token : string) (users : list User.t) :
  match get_current_user token users with
  | Return user =>
      ∃ payload email,
        jwt_decode token = Some payload ∧
        PyDict.get "sub" payload = Some (ClaimStr email) ∧
        find_user_by_email email users = Some user ∧
        User.email user = email
  | Raise e => e = HTTPException 401
  end.
Proof.
  rewrite /get_current_user.
  destruct (jwt_decode token) as [payload|]; [|done].
  destruct (PyDict.get "sub" payload) as [[email|t]|] eqn:Hsub; try done.
  destruct (find_user_by_email email users) as [user|] eqn:Hfind; [|done].
  exists payload, email. split_and!; try done.
  by destruct (find_user_by_email_Some _ _ _ Hfind).
Qed.

(** X23. The token that [register] issues is the encoding of the claims
    [sub], the email, and [exp], 30 minutes after the clock reading taken for
    it. If [jwt.decode] accepts this token and gives its [sub] back,
    [get_current_user] on the new store answers with the stored record of
    the user just registered, online and with its timestamps cut to the
    millisecond; [get_me] of that record is the user of the [register]
    answer except for [created_at], which [register] answered as the clock
    gave it. *)
Theorem register_token_authenticates (user_data : UserCreate)
    (new_id hashed : string) (created active token_time : Z)
    (users : list User.t) (payload : list (string * claim)) :
  let claims :=
    [("sub", ClaimStr (create_email user_data));
     ("exp", ClaimTime (token_time + minutes 30)%Z)] in
  create_email user_data ∉ User.email <$> users →
  create_username user_data ∉ User.username <$> users →
  jwt_decode (jwt_encode claims) = Some payload →
  PyDict.get "sub" payload = Some (ClaimStr (create_email user_data)) →
  ∃ users' tok stored,
    register user_data new_id hashed created active token_time users =
      (users', Return tok) ∧
    Token.access_token tok = jwt_encode claims ∧
    get_current_user (Token.access_token tok) users' = Return stored ∧
    stored =
      User.mk new_id (create_email user_data) (create_username user_data)
        hashed None true (created / 1000 * 1000)%Z (active / 1000 * 1000)%Z ∧
    get_me stored =
      UserResponse.mk new_id (create_email user_data)
        (create_username user_data) None true (created / 1000 * 1000)%Z ∧
    Token.user tok =
      UserResponse.mk new_id (create_email user_data)
        (create_username user_data) None true created.
Proof.
  intros claims He%find_user_by_email_None Hn%find_user_by_username_None
    Hdec Hsub.
  rewrite /register He Hn. eexists _, _, _. split; [done|]. simpl.
  assert (create_access_token [("sub", ClaimStr (create_email user_data))]
            (Some (minutes ACCESS_TOKEN_EXPIRE_MINUTES)) token_time
          = jwt_encode claims) as Htok.
  { rewrite /create_access_token /=. by destruct (decide ("sub" = "exp")). }
  rewrite Htok. split; [done|].
  rewrite /get_current_user Hdec Hsub.
  rewrite find_user_by_email_app_last He /= decide_True //.
Qed.

(** X24. The expiry that [create_access_token] puts in a token is the clock
    reading plus the delta given, or plus 15 minutes when no delta is given
    or the delta is zero; it replaces an [exp] already present in the data,
    and every other claim of the data is encoded as given. *)
Theorem create_access_token_expiry (data : list (string * claim))
    (expires_delta : option Z) (now : Z) :
  ∃ claims,
    create_access_token data expires_delta now = jwt_encode claims ∧
    PyDict.get "exp" claims =
      Some (ClaimTime
              (now + match expires_delta with
                     | Some delta => if decide (delta = 0%Z) then minutes 15
                                     else delta
                     | None => minutes 15
                     end)) ∧
    (∀ k, k ≠ "exp" → PyDict.get k claims = PyDict.get k data) ∧
    length claims =
      (if PyDict.contains "exp" data then length data else S (length data)).
Proof.
  rewrite /create_access_token. eexists. split; [done|]. split_and!.
  - rewrite get_set_eq. destruct expires_delta as [delta|]; [|done].
    by case_decide.
  - intros k Hne. by rewrite get_set_ne.
  - apply length_set.
Qed.

End account_properties.

(** ** Relay endpoints with a registered target *)

(** X25. When the target of a request-style relay has a handle in the room,
    the endpoint writes one message to that handle: the object with [type],
    [from_user] and the payload of the request, without [to_user] and
    [room_id]. The acknowledgment is returned only if the write succeeds: an
    exception of the write is the outcome of the endpoint. *)
Theorem relay_endpoints_write (m : ConnectionManager) (net : transport)
    (room from to : string) (payload : json) (ws : WebSocket) :
  lookup_handle room to m = Some ws →
  let answer (text : string) : outcome json :=
    match net ws with
    | None => Return (JObj [("message", JStr text)])
    | Some e => Raise e
    end in
  send_offer
    {| offer_room_id := room; offer_from_user := from;
       offer_to_user := to; offer := payload |} m net =
    ([(ws, Dumps (JObj [("type", JStr "webrtc_offer");
                        ("from_user", JStr from); ("offer", payload)]))],
     answer "Offer sent") ∧
  send_answer
    {| answer_room_id := room; answer_from_user := from;
       answer_to_user := to; answer := payload |} m net =
    ([(ws, Dumps (JObj [("type", JStr "webrtc_answer");
                        ("from_user", JStr from); ("answer", payload)]))],
     answer "Answer sent") ∧
  send_ice_candidate
    {| candidate_room_id := room; candidate_from_user := from;
       candidate_to_user := to; candidate := payload |} m net =
    ([(ws, Dumps (JObj [("type", JStr "ice_candidate");
                        ("from_user", JStr from); ("candidate", payload)]))],
     answer "ICE candidate sent").
Proof.
  intros Hl. simpl.
  rewrite /send_offer /send_answer /send_ice_candidate /mbind /io_bind /=.
  rewrite !send_personal_message_eq Hl.
  by destruct (net ws).
Qed.

(** ** The further theorems at concrete inputs *)

Lemma connect_disconnect_roundtrip_witness :
  reachable registry_r1 ∧
  lookup_handle "r1" "C" registry_r1 = None ∧
  ∃ m1, connect 3 "C" "r1" registry_r1 = (m1, Return tt) ∧
        lookup_handle "r1" "C" m1 = Some 3 ∧
        disconnect "C" "r1" m1 = (registry_r1, Return tt).
Proof.
  split; [exact registry_r1_reachable|]. split; [reflexivity|].
  exact (connect_disconnect_roundtrip registry_r1 3 "C" "r1"
           registry_r1_reachable eq_refl).
Defined.

Lemma register_unregister_idempotent_witness :
  reachable registry_r1 ∧
  ∃ m1, disconnect "A" "r1" registry_r1 = (m1, Return tt) ∧
        disconnect "A" "r1" m1 = (m1, Return tt).
Proof.
  split; [exact registry_r1_reachable|].
  exact (proj1 (register_unregister_idempotent registry_r1 1 "A" "r1"
                  registry_r1_reachable)).
Defined.

Lemma websocket_endpoint_reachable_witness :
  reachable registry_r1 ∧
  reachable
    (websocket_endpoint 3 "r1" "C" [Text "hi" (Some chat_frame); Disconnected]
       registry_r1 reliable).1.1.
Proof.
  split; [exact registry_r1_reachable|].
  exact (websocket_endpoint_reachable 3 "r1" "C"
           [Text "hi" (Some chat_frame); Disconnected] registry_r1 reliable
           registry_r1_reachable).
Defined.

Lemma websocket_endpoint_registry_witness :
  reachable registry_r1 ∧
  ∃ m1 m' tr st,
    connect 3 "C" "r1" registry_r1 = (m1, Return tt) ∧
    websocket_endpoint 3 "r1" "C" [Text "{" None] registry_r1 reliable =
      (m', tr, st) ∧
    match st with
    | Closed => disconnect "C" "r1" m1 = (m', Return tt) ∧
                lookup_handle "r1" "C" m' = None
    | _ => m' = m1 ∧ lookup_handle "r1" "C" m' = Some 3
    end.
Proof.
  split; [exact registry_r1_reachable|].
  exact (websocket_endpoint_registry 3 "r1" "C" [Text "{" None] registry_r1
           reliable registry_r1_reachable).
Defined.

Lemma targeted_relay_send_failure_witness :
  subscript offer_for_B "type" = Return (JStr "webrtc_offer") ∧
  targeted (JStr "webrtc_offer") = true ∧
  subscript offer_for_B "to_user" = Return (JStr "B") ∧
  lookup_handle "r1" "B" registry_r1 = Some 2 ∧
  without_2 2 = Some WebSocketDisconnect ∧
  reachable registry_r1 ∧
  ∃ m', disconnect "A" "r1" registry_r1 = (m', Return tt) ∧
        websocket_step (Text "offer-text" (Some offer_for_B)) "r1" "A"
          registry_r1 without_2 =
          (m',
           (2, Raw "offer-text") ::
             ((λ c, (c.2, user_disconnected "A")) <$>
                default [] (active_connections m' !! "r1")),
           Closed) ∧
        lookup_handle "r1" "A" m' = None.
Proof.
  repeat (split; [reflexivity|]). split; [exact registry_r1_reachable|].
  exact (proj2 (targeted_relay_send_failure registry_r1 without_2 "r1" "A"
                  "offer-text" "B" offer_for_B (JStr "webrtc_offer") 2
                  WebSocketDisconnect eq_refl eq_refl eq_refl eq_refl eq_refl)
           eq_refl registry_r1_reachable).
Defined.

Lemma targeted_relay_odd_target_witness :
  subscript offer_for_7 "type" = Return (JStr "webrtc_offer") ∧
  targeted (JStr "webrtc_offer") = true ∧
  subscript offer_for_7 "to_user" = Return (JNum "7") ∧
  websocket_step (Text "offer-text" (Some offer_for_7)) "r1" "A"
    registry_r1 reliable = (registry_r1, [], Active).
Proof.
  repeat (split; [reflexivity|]).
  exact (proj1 (targeted_relay_odd_target registry_r1 reliable "r1" "A"
                  "offer-text" offer_for_7 (JStr "webrtc_offer") (JNum "7")
                  eq_refl eq_refl eq_refl) eq_refl).
Defined.

Lemma relay_endpoints_write_witness :
  lookup_handle "r1" "B" registry_r1 = Some 2 ∧
  send_offer
    {| offer_room_id := "r1"; offer_from_user := "A";
       offer_to_user := "B"; offer := JStr "sdp" |} registry_r1 without_2 =
    ([(2, Dumps (JObj [("type", JStr "webrtc_offer");
                       ("from_user", JStr "A"); ("offer", JStr "sdp")]))],
     Raise WebSocketDisconnect).
Proof.
  split; [reflexivity|].
  exact (proj1 (relay_endpoints_write registry_r1 without_2 "r1" "A" "B"
                  (JStr "sdp") 2 eq_refl)).
Defined.

Lemma store_ok_lobby : store_ok [lobby] ∧ within_capacity [lobby].
Proof.
  split; [split|].
  - apply NoDup_singleton.
  - apply Forall_singleton, NoDup_singleton.
  - apply Forall_singleton. simpl. lia.
Defined.

(** A joins the lobby: A is stored as a participant, B's handle is sent
    nothing, and the request ends with [TypeError]. *)
Example join_room_lobby :
  join_room "r1" user_A [lobby] registry_r1 reliable =
    ([ChatRoom.mk "r1" None "en" "beginner" 8 false "B" ["B"; "A"] []],
     [], Raise TypeError).
Proof. reflexivity. Qed.


Lemma room_endpoints_keep_store_witness :
  store_ok [lobby] ∧ within_capacity [lobby] ∧
  store_ok (join_room "r1" user_A [lobby] registry_r1 reliable).1.1 ∧
  within_capacity (leave_room "r1" "B" [lobby] registry_r1 reliable).1.1.1.
Proof.
  split; [exact (proj1 store_ok_lobby)|]. split; [exact (proj2 store_ok_lobby)|].
  destruct (room_endpoints_keep_store [lobby] registry_r1 reliable "r1" "B"
              user_A
              {| voice_room_id := "r1"; voice_user_id := "A";
                 is_speaking := true; is_muted := false |}
              (proj1 store_ok_lobby) (proj2 store_ok_lobby))
    as ((H1 & _) & (_ & H2) & _).
  split; assumption.
Defined.

Lemma not_in_lobby : "A" ∉ ChatRoom.participants lobby.
Proof.
  intros Hin. apply list_elem_of_singleton in Hin. discriminate Hin.
Defined.

Lemma join_then_leave_witness :
  reachable registry_r1 ∧
  find_one "r1" [lobby] = Some lobby ∧
  room_is_full lobby = false ∧
  (User.id user_A ∉ ChatRoom.participants lobby) ∧
  (User.id user_A ∉ ChatRoom.active_speakers lobby) ∧
  (leave_room "r1" (User.id user_A)
     (join_room "r1" user_A [lobby] registry_r1 reliable).1.1
     registry_r1 reliable).1.1.1 = [lobby].
Proof.
  split; [exact registry_r1_reachable|]. split; [reflexivity|].
  split; [reflexivity|]. split; [exact not_in_lobby|].
  split; [apply not_elem_of_nil|].
  exact (join_then_leave [lobby] registry_r1 reliable reliable "r1" user_A lobby
           registry_r1_reachable eq_refl eq_refl
           not_in_lobby (not_elem_of_nil "A")).
Defined.

Lemma leave_room_registry_witness :
  reachable registry_r1 ∧
  ∃ m', disconnect "B" "r1" registry_r1 = (m', Return tt) ∧
        (leave_room "r1" "B" [lobby] registry_r1 reliable).1.1.2 = m' ∧
        lookup_handle "r1" "B" m' = None.
Proof.
  split; [exact registry_r1_reachable|].
  destruct (proj2 (leave_room_registry [lobby] registry_r1 reliable "r1" "B"
                     registry_r1_reachable) lobby eq_refl)
    as (m' & H1 & _ & H2 & _ & H3).
  exists m'. repeat split; assumption.
Defined.

Lemma session_after_leave_witness :
  reachable registry_r1 ∧
  find_one "r1" [lobby] = Some lobby ∧
  subscript chat_frame "type" = Return (JStr "chat") ∧
  targeted (JStr "chat") = false ∧
  let m' := (leave_room "r1" "B" [lobby] registry_r1 reliable).1.1.2 in
  websocket_step (Text "chat-text" (Some chat_frame)) "r1" "B" m' reliable =
    (m', [(1, Raw "chat-text")], Active).
Proof.
  split; [exact registry_r1_reachable|]. repeat (split; [reflexivity|]).
  exact (proj1 (session_after_leave [lobby] registry_r1 reliable reliable
                  "r1" "B" "chat-text" lobby chat_frame (JStr "chat")
                  registry_r1_reachable eq_refl eq_refl eq_refl)).
Defined.

Lemma get_rooms_agrees_with_get_room_witness :
  NoDup (ChatRoom.id <$> [lobby]) ∧
  length (get_rooms [lobby] [user_B]) = 1 ∧
  get_room "r1" [lobby] [user_B] = Return (room_response [user_B] lobby).
Proof.
  split; [apply NoDup_singleton|].
  destruct (get_rooms_agrees_with_get_room [lobby] [user_B]
              (NoDup_singleton "r1")) as (H1 & _ & H2).
  split; [exact H1|]. apply (H2 lobby). apply list_elem_of_here.
Defined.

Lemma room_response_participants_witness :
  NoDup (User.id <$> [user_B]) ∧
  ChatRoomResponse.participant_count (room_response [user_B] lobby) = 1%Z ∧
  (Z.of_nat (length (ChatRoomResponse.participants (room_response [user_B] lobby)))
   ≤ 1)%Z.
Proof.
  split; [apply NoDup_singleton|].
  destruct (room_response_participants [user_B] lobby (NoDup_singleton "B"))
    as (H1 & H2 & _).
  split; [exact H1 | exact H2].
Defined.

Lemma accounts_ok_B : accounts_ok [user_B].
Proof. split; apply NoDup_singleton. Defined.

Lemma register_effect_witness :
  accounts_ok [user_B] ∧
  ∃ users' resp,
    @register toy_libraries create_C "C" "$2b$pw" 5 5 6 [user_B] =
      (users', resp) ∧
    accounts_ok users'.
Proof.
  split; [exact accounts_ok_B|].
  destruct (@register_effect toy_libraries create_C "C" "$2b$pw" 5 5 6 [user_B]
              accounts_ok_B) as (users' & resp & H1 & H2 & _).
  exists users', resp. split; assumption.
Defined.

Lemma login_then_logout_witness :
  find_user_by_email "b@example.org" [user_B] = Some user_B ∧
  (∃ tok users1,
     @login toy_libraries login_B 10 11 [user_B] = (users1, Return tok) ∧
     find_user_by_email "b@example.org" (@logout user_B 2020 users1).1 =
       Some (User.mk "B" "b@example.org" "bee" "$2b$secret" None false 0 2000)).
Proof.
  split; [reflexivity|].
  eexists _, _. split; [reflexivity|].
  exact (proj1 (@login_then_logout toy_libraries login_B 10 11 2020 [user_B]
                  user_B _ _ eq_refl eq_refl)).
Defined.

Lemma not_registered_C :
  (create_email create_C ∉ User.email <$> [user_B]) ∧
  (create_username create_C ∉ User.username <$> [user_B]).
Proof.
  split; intros Hin; apply list_elem_of_singleton in Hin; discriminate Hin.
Defined.

Lemma register_token_authenticates_witness :
  let claims :=
    [("sub", ClaimStr (create_email create_C));
     ("exp", ClaimTime (7 + minutes 30)%Z)] in
  let payload :=
    [("sub", ClaimStr (create_email create_C));
     ("exp", ClaimTime (minutes 30))] in
  (create_email create_C ∉ User.email <$> [user_B]) ∧
  (create_username create_C ∉ User.username <$> [user_B]) ∧
  @jwt_decode toy_libraries (@jwt_encode toy_libraries claims) = Some payload ∧
  PyDict.get "sub" payload = Some (ClaimStr (create_email create_C)) ∧
  ∃ users' tok stored,
    @register toy_libraries create_C "C" "$2b$pw" 1234 1234 7 [user_B] =
      (users', Return tok) ∧
    @get_current_user toy_libraries (Token.access_token tok) users' =
      Return stored ∧
    User.created_at stored = 1000%Z ∧
    UserResponse.created_at (Token.user tok) = 1234%Z.
Proof.
  intros claims payload. split; [exact (proj1 not_registered_C)|].
  split; [exact (proj2 not_registered_C)|]. split; [reflexivity|].
  split; [reflexivity|].
  destruct (@register_token_authenticates toy_libraries create_C "C" "$2b$pw"
              1234 1234 7 [user_B] payload
              (proj1 not_registered_C) (proj2 not_registered_C)
              eq_refl eq_refl)
    as (users' & tok & stored & H1 & _ & H2 & H3 & _ & H4).
  exists users', tok, stored. split; [exact H1|]. split; [exact H2|].
  split; [by rewrite H3 | by rewrite H4].
Defined.

(** ** Order of delivery *)

Lemma writes_to_handle (u u' : string) (ws : WebSocket) (msg : message)
    (conns : list (string * WebSocket)) :
  NoDup conns.*1 →
  u' ≠ u →
  PyDict.get u' conns = Some ws →
  (∀ u'', PyDict.get u'' conns = Some ws → u'' = u') →
  filter (λ s, s.1 = ws)
    ((λ c, (c.2, msg)) <$> filter (λ c, Some c.1 ≠ Some u) conns) =
    [(ws, msg)].
Proof.
  intros Hnd Hne Hget Hinj.
  assert (∀ c, c ∈ conns → c.2 = ws → c.1 = u') as Hinj'.
  { intros [k w] Hin Hw. simpl in *. subst w. apply Hinj. by apply elem_get. }
  clear Hinj. induction conns as [|[k w] conns IH]; simpl in *; [done|].
  apply NoDup_cons in Hnd as [Hk Hnd].
  destruct (decide (k = u')) as [->|Hku].
  - injection Hget as ->.
    rewrite filter_cons_True; [naive_solver|]. rewrite /= filter_cons_True //.
    f_equal. apply filter_none.
    intros [w' msg'] ([k' w''] & [= -> ->] & [_ Hin]%list_elem_of_filter)%list_elem_of_fmap.
    simpl. intros ->. apply Hk. apply list_elem_of_fmap. exists (k', ws).
    split; [|done]. simpl. symmetry. apply (Hinj' (k', ws)); [by right | done].
  - assert (w ≠ ws) as Hw.
    { intros ->. apply Hku. apply (Hinj' (k, ws)); [left | done]. }
    assert (filter (λ s, s.1 = ws)
              ((λ c, (c.2, msg)) <$> filter (λ c, Some c.1 ≠ Some u) conns)
            = [(ws, msg)]) as IH'.
    { apply IH; [done|done|]. intros c Hc. apply Hinj'. by right. }
    destruct (decide (Some k ≠ Some u)).
    + rewrite filter_cons_True // /= filter_cons_False //.
    + rewrite filter_cons_False //.
Qed.

Lemma websocket_loop_broadcasts evs r u m net :
  Forall (λ ev, broadcast_frame ev = true) evs →
  websocket_loop evs r u m net =
    (m,
     evs ≫= (λ ev,
       (λ c, (c.2, Raw (frame_text ev))) <$>
         filter (λ c, Some c.1 ≠ Some u)
           (default [] (active_connections m !! r))),
     Active).
Proof.
  induction evs as [|ev evs IH]; simpl; [done|].
  intros [Hev Hall]%Forall_cons.
  destruct ev as [data [v|]|]; simpl in Hev; try done.
  destruct (subscript v "type") as [ty|] eqn:Hty; [|done].
  apply negb_true_iff in Hev.
  rewrite (websocket_step_broadcast data v ty r u m net Hty Hev) IH //.
Qed.

(** X26. First in, first out. When a session in a reachable state receives a
    run of broadcast-class frames, it stays active, the registry is untouched
    and, whatever the transport does, the texts written to the handle of
    another member of the room (a handle no third member shares) are exactly
    the texts of the frames, each once, in the order in which they were
    received. *)
Theorem broadcast_frames_in_order (evs : list received) (r u u' : string)
    (ws : WebSocket) (m : ConnectionManager) (net : transport) :
  reachable m →
  Forall (λ ev, broadcast_frame ev = true) evs →
  u' ≠ u →
  lookup_handle r u' m = Some ws →
  (∀ u'', lookup_handle r u'' m = Some ws → u'' = u') →
  ∃ tr, websocket_loop evs r u m net = (m, tr, Active) ∧
        (filter (λ s, s.1 = ws) tr).*2 = (λ ev, Raw (frame_text ev)) <$> evs.
Proof.
  intros Hinv%reachable_inv Hall Hne Hl Hinj.
  rewrite websocket_loop_broadcasts //. eexists; split; [done|].
  rewrite /lookup_handle in Hl.
  destruct (active_connections m !! r) as [conns|] eqn:Hr; [|done].
  assert (∀ u'', PyDict.get u'' conns = Some ws → u'' = u') as Hinj'.
  { intros u'' Hu. apply Hinj. by rewrite /lookup_handle Hr. }
  pose proof (inv_keys_nodup m Hinv r conns Hr) as Hnd. simpl.
  clear Hall. induction evs as [|ev evs IH]; [done|].
  rewrite /= filter_app fmap_app IH.
  by rewrite (writes_to_handle u u' ws _ conns Hnd Hne Hl Hinj').
Qed.

Lemma broadcast_frames_in_order_witness :
  reachable registry_r1 ∧
  Forall (λ ev, broadcast_frame ev = true)
    [Text "one" (Some chat_frame); Text "two" (Some chat_frame)] ∧
  "B" ≠ "A" ∧
  lookup_handle "r1" "B" registry_r1 = Some 2 ∧
  (∀ u'', lookup_handle "r1" u'' registry_r1 = Some 2 → u'' = "B") ∧
  ∃ tr, websocket_loop
          [Text "one" (Some chat_frame); Text "two" (Some chat_frame)]
          "r1" "A" registry_r1 without_2 = (registry_r1, tr, Active) ∧
        (filter (λ s, s.1 = 2) tr).*2 = [Raw "one"; Raw "two"].
Proof.
  assert (Forall (λ ev, broadcast_frame ev = true)
            [Text "one" (Some chat_frame); Text "two" (Some chat_frame)]) as Hall.
  { repeat constructor. }
  assert ("B" ≠ "A") as Hne by discriminate.
  assert (∀ u'', lookup_handle "r1" u'' registry_r1 = Some 2 → u'' = "B") as Hinj.
  { intros u''. unfold lookup_handle.
    change (active_connections registry_r1 !! "r1")
      with (Some [("A", 1); ("B", 2)]).
    simpl. destruct (decide ("A" = u'')); [discriminate|].
    destruct (decide ("B" = u'')); [by intros _ | discriminate]. }
  split; [exact registry_r1_reachable|]. split; [exact Hall|].
  split; [exact Hne|]. split; [reflexivity|]. split; [exact Hinj|].
  exact (broadcast_frames_in_order _ "r1" "A" "B" 2 registry_r1 without_2
           registry_r1_reachable Hall Hne eq_refl Hinj).
Defined.
